(** * World generator service: a shallow embedding of [main.py]

    The service asks a generative model for a "world" record, reconciles the
    model's free text with a fallback record, stores the result in a
    process-wide list and ranks stored worlds against a query embedding with
    three metrics.

    Conventions of the embedding.
    - Python [str] is [string], the UTF-8 encoding of the text; indices are
      byte offsets, and the code cuts the text at ASCII delimiters only.
    - Python [float] is IEEE 754 binary64, that is [PrimFloat.float]; [*], [+],
      [-], [/] and [math.sqrt] are the correctly rounded primitives.
    - A Python [dict] is an association list in insertion order.
    - An exception is a value of [exn]; code that may raise returns [result].
    - The providers (generation, embedding) are oracles indexed by the
      number of provider calls already made, so that their answers may change
      from one call to the next. *)

From Stdlib Require Import ZArith List String Ascii Bool Lia Floats.
From Stdlib Require Import Sorting.Sorted Permutation.
Import ListNotations.

Local Open Scope string_scope.
Local Open Scope Z_scope.

(** ** Exceptions *)

Inductive exn : Type :=
| TypeError | KeyError | AttributeError
| ZeroDivisionError | OverflowError | ValueError
| ProviderError.

Inductive result (A : Type) : Type :=
| Ok (a : A)
| Raise (e : exn).

Arguments Ok {A} a.
Arguments Raise {A} e.

Definition rbind {A B} (r : result A) (k : A -> result B) : result B :=
  match r with
  | Ok a => k a
  | Raise e => Raise e
  end.

Notation "x <- r ;; k" := (rbind r (fun x => k))
  (at level 61, r at next level, right associativity).

(** [[f(x) for x in l]], stopping at the first element that raises. *)
Fixpoint map_result {A B} (f : A -> result B) (l : list A) : result (list B) :=
  match l with
  | [] => Ok []
  | x :: l' => y <- f x ;; ys <- map_result f l' ;; Ok (y :: ys)
  end.

(** ** Strings *)

Definition dquote : ascii := "034"%char.

(** [s.find(c)] for a one-character needle: index of the first occurrence,
    [-1] when there is none. *)
Fixpoint find_from (c : ascii) (s : string) (i : Z) : Z :=
  match s with
  | EmptyString => -1
  | String a s' => if Ascii.eqb a c then i else find_from c s' (i + 1)
  end.

Definition str_find (c : ascii) (s : string) : Z := find_from c s 0.

(** [s.rfind(c)]: index of the last occurrence, [-1] when there is none. *)
Fixpoint rfind_from (c : ascii) (s : string) (i : Z) : Z :=
  match s with
  | EmptyString => -1
  | String a s' =>
      let r := rfind_from c s' (i + 1) in
      if r =? -1 then (if Ascii.eqb a c then i else -1) else r
  end.

Definition str_rfind (c : ascii) (s : string) : Z := rfind_from c s 0.

(** [s[lo:hi]] for the non-negative bounds the code slices with. *)
Definition slice (s : string) (lo hi : Z) : string :=
  substring (Z.to_nat lo) (Z.to_nat (hi - lo)) s.

(** Whitespace removed by [str.strip()]: the code points on which
    [str.isspace()] holds, by their UTF-8 encodings. One byte: TAB..CR,
    FS..US, SPACE. *)
Definition is_space (c : ascii) : bool :=
  let n := nat_of_ascii c in
  ((9 <=? n)%nat && (n <=? 13)%nat) || ((28 <=? n)%nat && (n <=? 32)%nat).

(** Two bytes: U+0085 and U+00A0, that is [C2 85] and [C2 A0]. *)
Definition is_space2 (a b : ascii) : bool :=
  let x := nat_of_ascii a in
  let y := nat_of_ascii b in
  (x =? 194)%nat && ((y =? 133)%nat || (y =? 160)%nat).

(** Three bytes: U+1680 ([E1 9A 80]), U+2000..U+200A ([E2 80 80] to
    [E2 80 8A]), U+2028, U+2029, U+202F ([E2 80 A8], [E2 80 A9], [E2 80 AF]),
    U+205F ([E2 81 9F]) and U+3000 ([E3 80 80]). *)
Definition is_space3 (a b c : ascii) : bool :=
  let x := nat_of_ascii a in
  let y := nat_of_ascii b in
  let z := nat_of_ascii c in
  ((x =? 225)%nat && (y =? 154)%nat && (z =? 128)%nat)
  || ((x =? 226)%nat && (y =? 128)%nat
      && (((128 <=? z)%nat && (z <=? 138)%nat)
          || (z =? 168)%nat || (z =? 169)%nat || (z =? 175)%nat))
  || ((x =? 226)%nat && (y =? 129)%nat && (z =? 159)%nat)
  || ((x =? 227)%nat && (y =? 128)%nat && (z =? 128)%nat).

(** The text without the whitespace characters it begins with; [p1], [p2]
    and [p3] recognise a whitespace character of one, two and three bytes. *)
Fixpoint drop_spaces (p1 : ascii -> bool) (p2 : ascii -> ascii -> bool)
    (p3 : ascii -> ascii -> ascii -> bool) (s : string) : string :=
  match s with
  | EmptyString => EmptyString
  | String a s1 =>
      if p1 a then drop_spaces p1 p2 p3 s1
      else
        match s1 with
        | EmptyString => s
        | String b s2 =>
            if p2 a b then drop_spaces p1 p2 p3 s2
            else
              match s2 with
              | EmptyString => s
              | String c s3 =>
                  if p3 a b c then drop_spaces p1 p2 p3 s3 else s
              end
        end
  end.

Fixpoint string_rev (s : string) : string :=
  match s with
  | EmptyString => EmptyString
  | String a s' => string_rev s' ++ String a EmptyString
  end.

Definition lstrip (s : string) : string :=
  drop_spaces is_space is_space2 is_space3 s.

(** [rstrip] reads the text from its end, where the bytes of a character
    come last byte first. *)
Definition rstrip (s : string) : string :=
  string_rev
    (drop_spaces is_space (fun a b => is_space2 b a)
       (fun a b c => is_space3 c b a) (string_rev s)).

Definition strip (s : string) : string := rstrip (lstrip s).

(** [needle in hay] on strings. *)
Fixpoint contains (needle hay : string) : bool :=
  prefix needle hay
  || match hay with
     | EmptyString => false
     | String _ hay' => contains needle hay'
     end.

(** Lowering of the ASCII letters, which is what [str.lower()] does on an
    ASCII text; the sample runtime below uses it. *)
Definition lower_ascii (c : ascii) : ascii :=
  let n := nat_of_ascii c in
  if ((65 <=? n)%nat && (n <=? 90)%nat) then ascii_of_nat (n + 32) else c.

Fixpoint lower (s : string) : string :=
  match s with
  | EmptyString => EmptyString
  | String c s' => String (lower_ascii c) (lower s')
  end.

(** ** Dictionaries *)

Definition dict (V : Type) : Type := list (string * V).

Fixpoint dict_get {V} (k : string) (d : dict V) : option V :=
  match d with
  | [] => None
  | (k', v) :: d' => if String.eqb k' k then Some v else dict_get k d'
  end.

(** [d[k] = v]: replaces the value in place, or appends a new entry. *)
Fixpoint dict_set {V} (k : string) (v : V) (d : dict V) : dict V :=
  match d with
  | [] => [(k, v)]
  | (k', v') :: d' =>
      if String.eqb k' k then (k', v) :: d' else (k', v') :: dict_set k v d'
  end.

Definition dict_keys {V} (d : dict V) : list string := map fst d.

(** [d[k]] as an expression: [KeyError] when [k] is missing. *)
Definition dict_item {V} (k : string) (d : dict V) : result V :=
  match dict_get k d with
  | Some v => Ok v
  | None => Raise KeyError
  end.

(** ** Values decoded from JSON *)

#[local] Set Warnings "-register-all".

Inductive json : Type :=
| JNull
| JBool (b : bool)
| JNum (lexeme : string)
| JStr (s : string)
| JArr (items : list json)
| JObj (members : dict json).

Definition is_str (k : string) (v : json) : bool :=
  match v with
  | JStr s => String.eqb s k
  | _ => false
  end.

(** What the interpreter and its standard library supply: the JSON decoder
    ([None] stands for any exception of [json.loads]); [str()] on decoded
    values, as the f-strings apply it; [str.lower()], with the interpreter's
    table of letters; and the arrangement that [list.sort] lands on when a
    key is a NaN (see [list_sort] below), given the keys of the list: the
    positions, each among the entries not yet taken, of the entries in the
    order of the result. *)
Class PyRuntime : Type := {
  json_loads : string -> option json;
  py_str : json -> string;
  py_lower : string -> string;
  sort_picks : list float -> list nat
}.

(** A text that begins with an opening brace decodes to an object or not at
    all. *)
Definition loads_object_on_brace (R : PyRuntime) : Prop :=
  forall s v, @json_loads R (String "{" s) = Some v -> exists d, v = JObj d.

Definition format_value `{PyRuntime} (v : json) : string :=
  match v with
  | JStr s => s
  | _ => py_str v
  end.

(** ** Similarity functions *)

Definition vec : Type := list float.

(** [sum(...)] over floats: a left fold with [+] from the start value 0.
    (CPython 3.12 and later add a compensation term to the fold, which
    changes the last bits of some sums; no statement below depends on the
    rounding of a sum.) *)
Definition py_sum (l : list float) : float :=
  fold_left PrimFloat.add l 0%float.

(** [zip(a, b)]: pairs up to the shorter argument; [None] is not iterable. *)
Definition py_zip (a b : option vec) : result (list (float * float)) :=
  match a, b with
  | Some x, Some y => Ok (combine x y)
  | _, _ => Raise TypeError
  end.

Definition dot_product (a b : option vec) : result float :=
  pairs <- py_zip a b ;;
  Ok (py_sum (map (fun p => (fst p * snd p)%float) pairs)).

(** [math.sqrt]: a domain error below zero. *)
Definition math_sqrt (x : float) : result float :=
  if (x <? 0)%float then Raise ValueError else Ok (PrimFloat.sqrt x).

(** [x / y] on floats: a zero divisor raises. *)
Definition float_div (x y : float) : result float :=
  if PrimFloat.is_zero y then Raise ZeroDivisionError else Ok (x / y)%float.

(** [x ** 2] on floats, after [float_pow]: the special values first, then the
    C library's [pow], taken here as the correctly rounded square, with an
    overflow reported as [OverflowError]. (A C library's [pow] may differ
    from the correctly rounded square in the last bit; the statements below
    rest on its sign, its zeros, its NaN and its overflow only.) *)
Definition float_pow2 (x : float) : result float :=
  if PrimFloat.is_nan x then Ok x
  else if PrimFloat.is_infinity x then Ok (PrimFloat.abs x)
  else if PrimFloat.is_zero x then Ok 0%float
  else
    let r := (PrimFloat.abs x * PrimFloat.abs x)%float in
    if PrimFloat.is_infinity r then Raise OverflowError else Ok r.

Definition cosine_similarity (a b : option vec) : result float :=
  dot <- dot_product a b ;;
  aa <- dot_product a a ;;
  norm_a <- math_sqrt aa ;;
  bb <- dot_product b b ;;
  norm_b <- math_sqrt bb ;;
  float_div dot (norm_a * norm_b)%float.

Definition euclidean_distance (a b : option vec) : result float :=
  pairs <- py_zip a b ;;
  squares <- map_result (fun p => float_pow2 (fst p - snd p)%float) pairs ;;
  math_sqrt (py_sum squares).

(** ** Sorting and slicing *)

(** The stable arrangement by key: each element, from the last to the
    first, is inserted before the first element whose key is not below its
    own. Keys are compared with [<] only. *)
Fixpoint insert_by {A} (key : A -> float) (x : A) (l : list A) : list A :=
  match l with
  | [] => [x]
  | y :: l' =>
      if (key y <? key x)%float then y :: insert_by key x l' else x :: y :: l'
  end.

Fixpoint sort_by {A} (key : A -> float) (l : list A) : list A :=
  match l with
  | [] => []
  | x :: l' => insert_by key x (sort_by key l')
  end.

(** No key is below the key before it: the list is one ascending run. *)
Fixpoint ascending {A} (key : A -> float) (l : list A) : bool :=
  match l with
  | [] => true
  | x :: l' =>
      match l' with
      | [] => true
      | y :: _ => negb (key y <? key x)%float && ascending key l'
      end
  end.

(** The entry at position [i] and the list without it. *)
Fixpoint take_out {A} (i : nat) (l : list A) : option (A * list A) :=
  match l, i with
  | [], _ => None
  | x :: l', O => Some (x, l')
  | x :: l', S i' =>
      match take_out i' l' with
      | Some (y, rest) => Some (y, x :: rest)
      | None => None
      end
  end.

(** The entries of [l] taken out one by one at the given positions, followed
    by what is left; a position out of range is passed over. Every
    rearrangement of [l] is of this form. *)
Fixpoint arrange {A} (picks : list nat) (l : list A) : list A :=
  match picks with
  | [] => l
  | i :: picks' =>
      match take_out i l with
      | Some (x, rest) => x :: arrange picks' rest
      | None => arrange picks' l
      end
  end.

(** [l.sort(key=...)] on float keys. The sort is stable and compares keys
    with [<] only. Where no key is a NaN, [<] orders the keys and the
    result is the stable arrangement by key, whatever the sorting procedure
    ([any_stable_sort] below). A list that is one ascending run is found
    sorted by the run detection of [list.sort] and left as it is, NaN or
    not; [sort_by] leaves it too ([sort_by_run]). Otherwise, with a NaN
    among the keys, the result is a rearrangement that depends on the merge
    schedule of the procedure; it is fixed by the keys and left to the
    runtime. *)
Definition list_sort `{PyRuntime} {A} (key : A -> float) (l : list A) : list A :=
  if forallb (fun x => negb (PrimFloat.is_nan (key x))) l || ascending key l
  then sort_by key l
  else arrange (sort_picks (map key l)) l.

(** [l[:n]]: a negative [n] counts from the end. *)
Definition py_take {A} (n : Z) (l : list A) : list A :=
  if n <? 0 then firstn (List.length l - Z.to_nat (- n)) l
  else firstn (Z.to_nat n) l.

(** ** Providers, events and the server state *)

Inductive EmbedReply : Type :=
| Embedding (values : vec)
| EmbedFailure (message : string).

Inductive GenReply : Type :=
| GenText (text : string)
| GenFailure (message : string).

Record FunctionCall : Type := {
  fc_name : string;
  fc_args : dict json
}.

Inductive ToolReply : Type :=
| ToolResponse (fn : option FunctionCall)
| ToolFailure (message : string).

(** The external collaborators. The first argument is the number of provider
    calls made before this one. *)
Record Provider : Type := {
  embed_content : nat -> string -> EmbedReply;
  generate_content : nat -> string -> GenReply;
  generate_with_tools : nat -> string -> ToolReply
}.

Inductive Event : Type :=
| EvEmbed (text : string) (reply : EmbedReply)
| EvGenerate (prompt : string) (reply : GenReply)
| EvTools (message : string) (reply : ToolReply)
| EvSleep (seconds : Z)
| EvPrint (what : string).

(** A stored world: [{"id": .., "reasoning": .., **world, "embedding": ..}].
    [fields] holds the entries spread from the reconciled record. *)
Record World : Type := {
  id : Z;
  reasoning : string;
  fields : dict json;
  embedding : option vec
}.

Record Server : Type := {
  worlds : list World;
  calls : nat;
  log : list Event
}.

Definition initial : Server := {| worlds := []; calls := 0; log := [] |}.

Definition emit (e : Event) (st : Server) : Server :=
  {| worlds := worlds st; calls := calls st; log := log st ++ [e] |}.

Definition tick (e : Event) (st : Server) : Server :=
  {| worlds := worlds st; calls := S (calls st); log := log st ++ [e] |}.

Definition append_world (w : World) (st : Server) : Server :=
  {| worlds := worlds st ++ [w]; calls := calls st; log := log st |}.

(** Handlers: a state transformer that may raise. *)
Definition M (A : Type) : Type := Server -> result A * Server.

Definition ret {A} (a : A) : M A := fun st => (Ok a, st).

Definition bind {A B} (m : M A) (k : A -> M B) : M B :=
  fun st =>
    match m st with
    | (Ok a, st') => k a st'
    | (Raise e, st') => (Raise e, st')
    end.

Definition lift {A} (r : result A) : M A := fun st => (r, st).

(** [try: body except Exception as e: handler] *)
Definition try_except {A} (body : M A) (handler : exn -> M A) : M A :=
  fun st =>
    match body st with
    | (Ok a, st') => (Ok a, st')
    | (Raise e, st') => handler e st'
    end.

Notation "x <~ m ;; k" := (bind m (fun x => k))
  (at level 61, m at next level, right associativity).

(** ** Requests, results and responses *)

Record WorldRequest : Type := {
  req_biome : string;
  req_culture : string;
  req_tone : string
}.

Record QueryRequest : Type := {
  query : string;
  topN : Z
}.

Record FunctionCallRequest : Type := {
  message : string
}.

(** What [generate_world] returns. *)
Record GenResult : Type := {
  gr_reasoning : string;
  gr_world : dict json;
  gr_embedding : option vec
}.

(** An entry of [matches]; [m_value] is the field called [score],
    [similarity] or [distance] by the three endpoints. *)
Record Match : Type := {
  m_id : Z;
  m_summary : json;
  m_tone : json;
  m_value : float
}.

Inductive Response : Type :=
| WorldGenerated (msg : string) (world : World)
| WorldList (ws : list World)
| Matches (matches : list Match)
| FunctionCalled (msg : string) (fn : FunctionCall) (world : World)
| ErrorBody (error : string).

(** ** The service *)

Definition fallback_summary : string :=
  "A mystical desert world shaped by nomadic wisdom.".

Definition fallback_myth : string :=
  "The Whispering Wind guides lost souls to hidden sanctuaries.".

Definition fallback_world (biome culture tone : json) : dict json :=
  [ ("summary", JStr fallback_summary);
    ("biome", biome);
    ("culture", culture);
    ("tone", tone);
    ("myth", JStr fallback_myth) ].

Definition tone_instructions : dict string :=
  [ ("mystical", "Use poetic language and evoke ancient mysteries.");
    ("grimdark", "Emphasize brutality, decay, and moral ambiguity.");
    ("hopeful", "Highlight resilience, rebirth, and unity.") ].

(** [if w["embedding"]]: [None] and the empty list are both false. *)
Definition truthy (e : option vec) : bool :=
  match e with
  | Some (_ :: _) => true
  | _ => false
  end.

Section Service.

Context {R : PyRuntime} (P : Provider).

(** [tone.lower()] exists on strings only. *)
Definition build_prompt (biome culture tone : json) : result string :=
  match tone with
  | JStr t =>
      let tone_instruction :=
        match dict_get (py_lower t) tone_instructions with
        | Some i => i
        | None => ""
        end in
      Ok ("
You are an AI worldbuilder. Your task is to generate a fictional world using step-by-step reasoning.

Step 1: Describe the biome - its climate, terrain, and flora.
Step 2: Based on the biome, infer the types of civilizations that could emerge.
Step 3: Describe the dominant culture - values, rituals, and architecture.
Step 4: Reflect the tone (" ++ t ++ ") in the world's atmosphere and conflicts.
Step 5: Create a myth or legend that embodies the world's essence.

User Input:
Biome: " ++ format_value biome ++ "
Culture: " ++ format_value culture ++ "
Tone: " ++ t ++ "

Instructions:
" ++ tone_instruction ++ "

First, reason through each step in natural language.
Then, return the final result in compact JSON format.
Do not skip the reasoning. Do not return only JSON.
")
  | _ => Raise AttributeError
  end.

Definition extract_json_and_reasoning (text : string) : option (string * json) :=
  let start := str_find "{" text in
  let end_ := str_rfind "}" text in
  if (start =? -1) || (end_ =? -1) || (end_ <=? start) then None
  else
    let reasoning := strip (slice text 0 start) in
    let json_text := slice text start (end_ + 1) in
    match json_loads json_text with
    | Some parsed => Some (reasoning, parsed)
    | None => None
    end.

(** One turn of the loop of [generate_world] on a decoded dict:
    [if key in parsed_world: world[key] = parsed_world[key]]. *)
Definition merge_step (parsed : dict json) (w : dict json) (key : string)
  : dict json :=
  match dict_get key parsed with
  | Some v => dict_set key v w
  | None => w
  end.

(** The loop [for key in world] of [generate_world]. On a value that is not
    a dict the membership test or the subscript raises [TypeError] and
    [world] is left as it was. *)
Definition update_known_keys (world : dict json) (parsed_world : json)
  : dict json * option exn :=
  match parsed_world with
  | JObj d => (fold_left (merge_step d) (dict_keys world) world, None)
  | JArr items =>
      (world,
       if existsb (fun key => existsb (is_str key) items) (dict_keys world)
       then Some TypeError else None)
  | JStr s =>
      (world,
       if existsb (fun key => contains key s) (dict_keys world)
       then Some TypeError else None)
  | JNull | JBool _ | JNum _ =>
      (world, match dict_keys world with [] => None | _ :: _ => Some TypeError end)
  end.

(** The statements of [generate_world] that follow the model's answer, on the
    locals [reasoning] (initially empty) and [world]; the third component is
    the exception that left the [try] block, if any. *)
Definition reconcile (text : string) (world : dict json)
  : string * dict json * option exn :=
  match extract_json_and_reasoning text with
  | None => ("", world, None)
  | Some (reasoning_text, parsed_world) =>
      let (world', e) := update_known_keys world parsed_world in
      (reasoning_text, world', e)
  end.

(** The loop [for attempt in range(3)] of [embed_text], over the attempt
    numbers still to run; falling out of the loop returns [None]. Creating
    the [GenerativeModel] object beforehand calls no provider. *)
Fixpoint embed_loop (text : string) (attempts : list nat) : M (option vec) :=
  match attempts with
  | [] => ret None
  | attempt :: rest =>
      fun st =>
        let reply := embed_content P (calls st) text in
        let st1 := tick (EvEmbed text reply) st in
        match reply with
        | Embedding values => (Ok (Some values), st1)
        | EmbedFailure msg =>
            if contains "429" msg && (attempt <? 2)%nat
            then embed_loop text rest (emit (EvSleep (2 ^ Z.of_nat attempt)) st1)
            else (Ok None, emit (EvPrint "Embedding error:") st1)
        end
  end.

Definition embed_text (text : string) : M (option vec) :=
  embed_loop text [0; 1; 2]%nat.

Definition generate_world (biome culture tone : json) : M GenResult :=
  prompt <~ lift (build_prompt biome culture tone) ;;
  let world := fallback_world biome culture tone in
  locals <~
    (fun st =>
       let reply := generate_content P (calls st) prompt in
       let st1 := tick (EvGenerate prompt reply) st in
       match reply with
       | GenFailure _ =>
           (Ok ("", world), emit (EvPrint "Gemini generation error:") st1)
       | GenText text =>
           match reconcile text world with
           | (r, w, None) => (Ok (r, w), st1)
           | (r, w, Some _) =>
               (Ok (r, w), emit (EvPrint "Gemini generation error:") st1)
           end
       end) ;;
  let world' := snd locals in
  summary <~ lift (dict_item "summary" world') ;;
  biome' <~ lift (dict_item "biome" world') ;;
  culture' <~ lift (dict_item "culture" world') ;;
  myth <~ lift (dict_item "myth" world') ;;
  let embedding_input :=
    format_value summary ++ " " ++ format_value biome' ++ " "
    ++ format_value culture' ++ " " ++ format_value myth in
  e <~ embed_text embedding_input ;;
  ret {| gr_reasoning := fst locals; gr_world := world'; gr_embedding := e |}.

(** [new_id = len(worlds) + 1], the [full_world] literal and
    [worlds.append(full_world)], as both generating routes run them. *)
Definition store_world (res : GenResult) : M World :=
  fun st =>
    let new_id := Z.of_nat (List.length (worlds st)) + 1 in
    let full_world :=
      {| id := new_id;
         reasoning := gr_reasoning res;
         fields := gr_world res;
         embedding := gr_embedding res |} in
    (Ok full_world, append_world full_world st).

Definition generate_world_route (req : WorldRequest) : M Response :=
  res <~ generate_world (JStr (req_biome req)) (JStr (req_culture req))
                        (JStr (req_tone req)) ;;
  full_world <~ store_world res ;;
  ret (WorldGenerated "World generated" full_world).

Definition get_worlds : M Response :=
  fun st => (Ok (WorldList (worlds st)), st).

(** One element of the list comprehension of a similarity endpoint. *)
Definition match_of (metric : option vec -> option vec -> result float)
    (query_embedding : option vec) (w : World) : result Match :=
  summary <- dict_item "summary" (fields w) ;;
  tone <- dict_item "tone" (fields w) ;;
  value <- metric query_embedding (embedding w) ;;
  Ok {| m_id := id w; m_summary := summary; m_tone := tone; m_value := value |}.

(** The three similarity endpoints differ in the metric and in the sort key
    only. *)
Definition similar_worlds (metric : option vec -> option vec -> result float)
    (key : float -> float) (req : QueryRequest) : M Response :=
  query_embedding <~ embed_text (query req) ;;
  fun st =>
    match map_result (match_of metric query_embedding)
            (filter (fun w => truthy (embedding w)) (worlds st)) with
    | Raise e => (Raise e, st)
    | Ok matches =>
        (Ok (Matches (py_take (topN req)
                        (list_sort (fun m => key (m_value m)) matches))), st)
    end.

Definition similar_dot : QueryRequest -> M Response :=
  similar_worlds dot_product PrimFloat.opp.

Definition similar_cosine : QueryRequest -> M Response :=
  similar_worlds cosine_similarity PrimFloat.opp.

Definition similar_l2 : QueryRequest -> M Response :=
  similar_worlds euclidean_distance (fun x => x).

Definition function_call (req : FunctionCallRequest) : M Response :=
  try_except
    (fun st =>
       let reply := generate_with_tools P (calls st) (message req) in
       let st1 := tick (EvTools (message req) reply) st in
       match reply with
       | ToolFailure _ => (Raise ProviderError, st1)
       | ToolResponse None =>
           (Ok (ErrorBody "No valid function call returned"), st1)
       | ToolResponse (Some fn) =>
           if negb (fc_name fn =? "generateWorld")%string
           then (Ok (ErrorBody "No valid function call returned"), st1)
           else
             (biome <~ lift (dict_item "biome" (fc_args fn)) ;;
              culture <~ lift (dict_item "culture" (fc_args fn)) ;;
              tone <~ lift (dict_item "tone" (fc_args fn)) ;;
              res <~ generate_world biome culture tone ;;
              full_world <~ store_world res ;;
              ret (FunctionCalled "Function call successful" fn full_world)) st1
       end)
    (fun _ st =>
       (Ok (ErrorBody "Function calling failed"),
        emit (EvPrint "Function calling error:") st)).

(** A request to the service and the handler it is routed to. *)
Inductive Request : Type :=
| PostGenerateWorld (req : WorldRequest)
| GetWorlds
| PostSimilarDot (req : QueryRequest)
| PostSimilarCosine (req : QueryRequest)
| PostSimilarL2 (req : QueryRequest)
| PostFunctionCall (req : FunctionCallRequest).

Definition handle (r : Request) : M Response :=
  match r with
  | PostGenerateWorld req => generate_world_route req
  | GetWorlds => get_worlds
  | PostSimilarDot req => similar_dot req
  | PostSimilarCosine req => similar_cosine req
  | PostSimilarL2 req => similar_l2 req
  | PostFunctionCall req => function_call req
  end.

(** The server after a sequence of requests, each run to completion; a
    handler that raises leaves the state it reached. *)
Definition run (rs : list Request) (st : Server) : Server :=
  fold_left (fun s r => snd (handle r s)) rs st.

End Service.

(** ** Reading the log of [embed_text] *)

(** [needle] occurs in [hay]: [hay] is some text, [needle], some text. *)
Definition occurs (needle hay : string) : Prop :=
  exists before after, hay = before ++ needle ++ after.

(** A failure whose text holds [429] somewhere: what [embed_text] takes for
    a rate-limit error. *)
Definition rate_limited (r : EmbedReply) : Prop :=
  match r with
  | Embedding _ => False
  | EmbedFailure msg => occurs "429" msg
  end.

Definition embedding_of (r : EmbedReply) : option vec :=
  match r with
  | Embedding values => Some values
  | EmbedFailure _ => None
  end.

(** The error line that follows a failed last attempt. *)
Definition report (r : EmbedReply) : list Event :=
  match r with
  | Embedding _ => []
  | EmbedFailure _ => [EvPrint "Embedding error:"]
  end.

(** Provider calls with these replies, a sleep between consecutive calls,
    the first of [delay] seconds and each next one twice as long. *)
Fixpoint schedule (text : string) (delay : Z) (replies : list EmbedReply)
  : list Event :=
  match replies with
  | [] => []
  | [r] => [EvEmbed text r]
  | r :: rest => EvEmbed text r :: EvSleep delay :: schedule text (2 * delay) rest
  end.

(** ** A runtime instance

    A decoder for the JSON grammar as [json.loads] reads it (including the
    literals [NaN], [Infinity] and [-Infinity], and the later of two equal
    keys winning), and a rendering of decoded values. They instantiate
    [PyRuntime] so that the service can be run on concrete texts. *)

Module Decoder.

Definition is_ws (c : ascii) : bool :=
  let n := nat_of_ascii c in
  (n =? 32)%nat || (n =? 9)%nat || (n =? 10)%nat || (n =? 13)%nat.

Fixpoint skip_ws (s : string) : string :=
  match s with
  | EmptyString => EmptyString
  | String c s' => if is_ws c then skip_ws s' else s
  end.

Definition is_digit (c : ascii) : bool :=
  let n := nat_of_ascii c in (48 <=? n)%nat && (n <=? 57)%nat.

Fixpoint take_digits (s : string) : string * string :=
  match s with
  | EmptyString => (EmptyString, EmptyString)
  | String c s' =>
      if is_digit c
      then let (ds, r) := take_digits s' in (String c ds, r)
      else (EmptyString, s)
  end.

(** If [s] starts with [p], the rest of [s]. *)
Fixpoint strip_prefix (p s : string) : option string :=
  match p, s with
  | EmptyString, _ => Some s
  | String a p', String b s' => if Ascii.eqb a b then strip_prefix p' s' else None
  | String _ _, EmptyString => None
  end.

Definition starts_with (c : ascii) (s : string) : bool :=
  match s with
  | String a _ => Ascii.eqb a c
  | EmptyString => false
  end.

Definition tail (s : string) : string :=
  match s with
  | String _ r => r
  | EmptyString => EmptyString
  end.

Definition hex_val (c : ascii) : option N :=
  let n := N_of_ascii c in
  (if (48 <=? n) && (n <=? 57) then Some (n - 48)
   else if (65 <=? n) && (n <=? 70) then Some (n - 55)
   else if (97 <=? n) && (n <=? 102) then Some (n - 87)
   else None)%N.

Definition hex4 (a b c d : ascii) : option N :=
  match hex_val a, hex_val b, hex_val c, hex_val d with
  | Some x, Some y, Some z, Some w => Some (((x * 16 + y) * 16 + z) * 16 + w)%N
  | _, _, _, _ => None
  end.

Definition byte (n : N) : ascii := ascii_of_N n.

(** The UTF-8 bytes of a code point. *)
Definition utf8 (cp : N) (tail : string) : string :=
  (if cp <? 128 then String (byte cp) tail
   else if cp <? 2048 then
     String (byte (192 + cp / 64)) (String (byte (128 + cp mod 64)) tail)
   else if cp <? 65536 then
     String (byte (224 + cp / 4096))
       (String (byte (128 + (cp / 64) mod 64)) (String (byte (128 + cp mod 64)) tail))
   else
     String (byte (240 + cp / 262144))
       (String (byte (128 + (cp / 4096) mod 64))
          (String (byte (128 + (cp / 64) mod 64))
             (String (byte (128 + cp mod 64)) tail))))%N.

Definition simple_escape (c : ascii) : option ascii :=
  if Ascii.eqb c dquote then Some dquote
  else match c with
       | "\"%char => Some "\"%char
       | "/"%char => Some "/"%char
       | "b"%char => Some "008"%char
       | "f"%char => Some "012"%char
       | "n"%char => Some "010"%char
       | "r"%char => Some "013"%char
       | "t"%char => Some "009"%char
       | _ => None
       end.

Definition with_char (c : ascii) (r : option (string * string)) : option (string * string) :=
  match r with
  | Some (str, rest) => Some (String c str, rest)
  | None => None
  end.

Definition with_code (cp : N) (r : option (string * string)) : option (string * string) :=
  match r with
  | Some (str, rest) => Some (utf8 cp str, rest)
  | None => None
  end.

(** A string body, after its opening quote; control characters are refused. *)
Fixpoint parse_string (s : string) : option (string * string) :=
  match s with
  | EmptyString => None
  | String c r =>
      if Ascii.eqb c dquote then Some (EmptyString, r)
      else if Ascii.eqb c "\"%char then
        match r with
        | String "u"%char (String h1 (String h2 (String h3 (String h4 r4)))) =>
            match hex4 h1 h2 h3 h4 with
            | None => None
            | Some hi =>
                match r4 with
                | String "\"%char (String "u"%char
                    (String l1 (String l2 (String l3 (String l4 r10))))) =>
                    match hex4 l1 l2 l3 l4 with
                    | Some lo =>
                        if ((55296 <=? hi) && (hi <=? 56319)
                            && (56320 <=? lo) && (lo <=? 57343))%N
                        then with_code (65536 + (hi - 55296) * 1024 + (lo - 56320))%N
                               (parse_string r10)
                        else with_code hi (parse_string r4)
                    | None => with_code hi (parse_string r4)
                    end
                | _ => with_code hi (parse_string r4)
                end
            end
        | String e r1 =>
            match simple_escape e with
            | Some ch => with_char ch (parse_string r1)
            | None => None
            end
        | EmptyString => None
        end
      else if (nat_of_ascii c <? 32)%nat then None
      else with_char c (parse_string r)
  end.

(** A number: an optional minus sign, an integer part without leading
    zeros, an optional fraction and an optional exponent; the result is the
    lexeme. *)
Definition parse_number (s : string) : option (string * string) :=
  let (sign, s1) :=
    match s with
    | String "-"%char r => ("-", r)
    | _ => ("", s)
    end in
  let int_part :=
    match s1 with
    | String "0"%char r => Some ("0", r)
    | String c _ =>
        if is_digit c then Some (take_digits s1) else None
    | EmptyString => None
    end in
  match int_part with
  | None => None
  | Some (ip, s2) =>
      let (frac, s3) :=
        match s2 with
        | String "."%char r =>
            match take_digits r with
            | (EmptyString, _) => ("", s2)
            | (ds, r') => ("." ++ ds, r')
            end
        | _ => ("", s2)
        end in
      let (ex, s4) :=
        match s3 with
        | String e r =>
            if Ascii.eqb e "e"%char || Ascii.eqb e "E"%char then
              let (sg, r1) :=
                match r with
                | String "+"%char r' => ("+", r')
                | String "-"%char r' => ("-", r')
                | _ => ("", r)
                end in
              match take_digits r1 with
              | (EmptyString, _) => ("", s3)
              | (ds, r') => (String e (sg ++ ds), r')
              end
            else ("", s3)
        | EmptyString => ("", s3)
        end in
      Some (sign ++ ip ++ frac ++ ex, s4)
  end.

Definition parse_literal (s : string) : option (json * string) :=
  match strip_prefix "null" s with
  | Some r => Some (JNull, r)
  | None =>
  match strip_prefix "true" s with
  | Some r => Some (JBool true, r)
  | None =>
  match strip_prefix "false" s with
  | Some r => Some (JBool false, r)
  | None =>
  match strip_prefix "NaN" s with
  | Some r => Some (JNum "NaN", r)
  | None =>
  match strip_prefix "Infinity" s with
  | Some r => Some (JNum "Infinity", r)
  | None =>
  match strip_prefix "-Infinity" s with
  | Some r => Some (JNum "-Infinity", r)
  | None =>
  match parse_number s with
  | Some (l, r) => Some (JNum l, r)
  | None => None
  end end end end end end end.

Fixpoint parse_value (fuel : nat) (s : string) : option (json * string) :=
  match fuel with
  | O => None
  | S fuel' =>
      match s with
      | String "{"%char r =>
          if starts_with "}" (skip_ws r)
          then Some (JObj [], tail (skip_ws r))
          else
            match parse_members fuel' (skip_ws r) [] with
            | Some (d, r2) => Some (JObj d, r2)
            | None => None
            end
      | String "["%char r =>
          if starts_with "]" (skip_ws r)
          then Some (JArr [], tail (skip_ws r))
          else
            match parse_items fuel' (skip_ws r) with
            | Some (l, r2) => Some (JArr l, r2)
            | None => None
            end
      | String c r =>
          if Ascii.eqb c dquote then
            match parse_string r with
            | Some (str, r') => Some (JStr str, r')
            | None => None
            end
          else parse_literal s
      | EmptyString => None
      end
  end

with parse_members (fuel : nat) (s : string) (acc : dict json)
  : option (dict json * string) :=
  match fuel with
  | O => None
  | S fuel' =>
      match s with
      | String c r =>
          if Ascii.eqb c dquote then
            match parse_string r with
            | None => None
            | Some (k, r1) =>
                match skip_ws r1 with
                | String ":"%char r2 =>
                    match parse_value fuel' (skip_ws r2) with
                    | None => None
                    | Some (v, r3) =>
                        let acc' := dict_set k v acc in
                        match skip_ws r3 with
                        | String ","%char r4 => parse_members fuel' (skip_ws r4) acc'
                        | String "}"%char r4 => Some (acc', r4)
                        | _ => None
                        end
                    end
                | _ => None
                end
            end
          else None
      | EmptyString => None
      end
  end

with parse_items (fuel : nat) (s : string) : option (list json * string) :=
  match fuel with
  | O => None
  | S fuel' =>
      match parse_value fuel' s with
      | None => None
      | Some (v, r1) =>
          match skip_ws r1 with
          | String ","%char r2 =>
              match parse_items fuel' (skip_ws r2) with
              | Some (l, r3) => Some (v :: l, r3)
              | None => None
              end
          | String "]"%char r2 => Some ([v], r2)
          | _ => None
          end
      end
  end.

Definition loads (s : string) : option json :=
  match parse_value (S (String.length s)) (skip_ws s) with
  | Some (v, r) =>
      match skip_ws r with
      | EmptyString => Some v
      | String _ _ => None
      end
  | None => None
  end.

Fixpoint render (v : json) : string :=
  match v with
  | JNull => "None"
  | JBool true => "True"
  | JBool false => "False"
  | JNum l => l
  | JStr str => str
  | JArr items => "[" ++ String.concat ", " (map render items) ++ "]"
  | JObj members =>
      "{" ++ String.concat ", "
               (map (fun kv : string * json =>
                       let (k, x) := kv in "'" ++ k ++ "': " ++ render x)
                    members) ++ "}"
  end.

(** The sample runtime. Its [py_lower] lowers the ASCII letters, which is
    [str.lower()] on the ASCII tones of the sample runs. Its [sort_picks]
    takes nothing out: it is consulted only for a list with a NaN key that
    is not one ascending run, and no sample run sorts such a list. *)
#[export] Instance runtime : PyRuntime := {|
  json_loads := loads;
  py_str := render;
  py_lower := lower;
  sort_picks := fun _ => []
|}.

(** [s] between double quotes. *)
Definition quoted (s : string) : string :=
  String dquote (s ++ String dquote EmptyString).

End Decoder.

(** ** Sample providers and stores *)

Module Samples.

Import Decoder.

Local Open Scope float_scope.

(** The model's answer of the specification's example: a sentence of
    reasoning followed by an object with the one key [summary]. *)
Definition answer : string :=
  "Some reasoning. {" ++ quoted "summary" ++ ":" ++ quoted "X"
  ++ ", " ++ quoted "id" ++ ": 7}".

Definition defaults : dict json := [("summary", JStr "A"); ("myth", JStr "B")].

(** Every call succeeds. *)
Definition helpful : Provider := {|
  embed_content := fun _ _ => Embedding [1; 2];
  generate_content := fun _ _ => GenText answer;
  generate_with_tools := fun _ _ =>
    ToolResponse (Some {| fc_name := "generateWorld";
                          fc_args := [("biome", JStr "reef");
                                      ("culture", JStr "seafaring");
                                      ("tone", JStr "mystical")] |})
|}.

(** The generative model answers without any JSON. *)
Definition rambling : Provider := {|
  embed_content := fun _ _ => Embedding [1; 2];
  generate_content := fun _ _ => GenText "no braces here";
  generate_with_tools := fun _ _ => ToolResponse None
|}.

(** Nothing is reachable. *)
Definition unreachable : Provider := {|
  embed_content := fun _ _ => EmbedFailure "503 unavailable";
  generate_content := fun _ _ => GenFailure "connection refused";
  generate_with_tools := fun _ _ => ToolFailure "connection refused"
|}.

(** The embedding provider is rate limited on its first two calls. *)
Definition throttled : Provider := {|
  embed_content := fun n _ =>
    if (n <? 2)%nat then EmbedFailure "429 quota exceeded" else Embedding [3; 4];
  generate_content := fun _ _ => GenText answer;
  generate_with_tools := fun _ _ => ToolResponse None
|}.

(** The embedding provider fails with an internal error; its trace id
    happens to hold the digits 429. *)
Definition broken : Provider := {|
  embed_content := fun _ _ => EmbedFailure "500 Internal error (trace 8f42991c)";
  generate_content := fun _ _ => GenText answer;
  generate_with_tools := fun _ _ => ToolResponse None
|}.

Definition sample_world (n : Z) (e : option vec) : World := {|
  id := n;
  reasoning := "";
  fields := fallback_world (JStr "tundra") (JStr "nomadic") (JStr "hopeful");
  embedding := e
|}.

(** Four stored worlds: the second has no embedding, the first and the
    fourth have the same one. *)
Definition library : Server := {|
  worlds := [ sample_world 1 (Some [1; 0]);
              sample_world 2 None;
              sample_world 3 (Some [3; 4]);
              sample_world 4 (Some [1; 0]) ];
  calls := 0;
  log := []
|}.

(** The embedding provider answers with two components of [2.0**600]. *)
Definition huge : Provider := {|
  embed_content := fun _ _ => Embedding [0x1p+600; 0x1p+600];
  generate_content := fun _ _ => GenText answer;
  generate_with_tools := fun _ _ => ToolResponse None
|}.

(** Three stored worlds whose dot products with that query are 1.0,
    [inf + -inf] and 2.0. *)
Definition extremes : Server := {|
  worlds := [ sample_world 1 (Some [0x1p-600; 0]);
              sample_world 2 (Some [0x1p+600; -0x1p+600]);
              sample_world 3 (Some [0x1p-599; 0]) ];
  calls := 0;
  log := []
|}.

Definition top2 : QueryRequest := {| query := "ice"; topN := 2 |}.

Definition tundra : WorldRequest :=
  {| req_biome := "tundra"; req_culture := "nomadic"; req_tone := "hopeful" |}.

Definition library_matches (values : list (Z * float)) : list Match :=
  map (fun p : Z * float =>
         {| m_id := fst p;
            m_summary := JStr fallback_summary;
            m_tone := JStr "hopeful";
            m_value := snd p |})
      values.

End Samples.

(** ** Vocabulary of the properties *)

Definition known_keys : list string :=
  ["summary"; "biome"; "culture"; "tone"; "myth"].

(** What the [try] block of [generate_world] leaves in [reasoning] and
    [world] for a given answer of the provider. *)
Definition locals_after `{PyRuntime} (reply : GenReply) (world : dict json)
  : string * dict json :=
  match reply with
  | GenFailure _ => ("", world)
  | GenText text => fst (reconcile text world)
  end.

Definition zero_vector (a : vec) : bool := forallb PrimFloat.is_zero a.

(** The norm as [cosine_similarity] computes it. *)
Definition norm (a : vec) : result float :=
  aa <- dot_product (Some a) (Some a) ;; math_sqrt aa.

Definition finite_norm (a : vec) : bool :=
  match norm a with
  | Ok n => PrimFloat.is_finite n
  | Raise _ => false
  end.

(** [b] may follow [a]: the key of [b] is not below the key of [a]. *)
Definition key_le {A} (key : A -> float) (a b : A) : Prop :=
  (key b <? key a)%float = false.

Definition no_nan {A} (key : A -> float) (a : A) : Prop :=
  PrimFloat.is_nan (key a) = false.

(** The three similarity endpoints, by their metric. *)
Inductive Metric : Type := Dot | Cosine | L2.

Definition metric_fn (k : Metric) : option vec -> option vec -> result float :=
  match k with
  | Dot => dot_product
  | Cosine => cosine_similarity
  | L2 => euclidean_distance
  end.

Definition sort_key (k : Metric) : float -> float :=
  match k with
  | Dot | Cosine => PrimFloat.opp
  | L2 => fun x => x
  end.

Definition endpoint {R : PyRuntime} (P : Provider) (k : Metric)
  : QueryRequest -> M Response :=
  match k with
  | Dot => similar_dot P
  | Cosine => similar_cosine P
  | L2 => similar_l2 P
  end.

(** [m2] may follow [m1] in the answer: for the dot product and the cosine
    the value of [m1] is not below that of [m2] (descending); for the
    distance the value of [m2] is not below that of [m1] (ascending). *)
Definition in_order (k : Metric) (m1 m2 : Match) : Prop :=
  match k with
  | Dot | Cosine => (m_value m1 <? m_value m2)%float = false
  | L2 => (m_value m2 <? m_value m1)%float = false
  end.

Definition has_value (s : float) (m : Match) : bool := (m_value m =? s)%float.

(** One request leaves the stored worlds as they were or appends a single
    world, whose id is the new length and whose spread fields are those of
    the fallback record. *)
Definition grows_by_at_most_one (st st' : Server) : Prop :=
  worlds st' = worlds st
  \/ exists w,
       worlds st' = (worlds st ++ [w])%list
       /\ id w = Z.of_nat (List.length (worlds st)) + 1
       /\ dict_keys (fields w) = known_keys.

Definition dense (ws : list World) : Prop :=
  map id ws = map Z.of_nat (seq 1 (List.length ws)).

Definition stored_ok (ws : list World) : Prop :=
  dense ws /\ Forall (fun w => dict_keys (fields w) = known_keys) ws.

(** ** Comparison of binary64 numbers, restated *)

Definition cmp_em (e1 : Z) (m1 : positive) (e2 : Z) (m2 : positive) : comparison :=
  match Z.compare e1 e2 with
  | Lt => Lt
  | Gt => Gt
  | Eq => Pos.compare m1 m2
  end.

Arguments cmp_em : simpl never.

(** [SFcompare], with the comparison of two finite numbers of one sign
    named. *)
Definition sf_cmp (f1 f2 : spec_float) : option comparison :=
  match f1, f2 with
  | S754_nan , _ | _, S754_nan => None
  | S754_infinity s1, S754_infinity s2 =>
      Some match s1, s2 with
        | true, true => Eq
        | false, false => Eq
        | true, false => Lt
        | false, true => Gt
        end
  | S754_infinity s, _ => Some (if s then Lt else Gt)
  | _, S754_infinity s => Some (if s then Gt else Lt)
  | S754_finite s _ _, S754_zero _ => Some (if s then Lt else Gt)
  | S754_zero _, S754_finite s _ _ => Some (if s then Gt else Lt)
  | S754_zero _, S754_zero _ => Some Eq
  | S754_finite s1 m1 e1, S754_finite s2 m2 e2 =>
      Some match s1, s2 with
        | true, false => Lt
        | false, true => Gt
        | false, false => cmp_em e1 m1 e2 m2
        | true, true => CompOpp (cmp_em e1 m1 e2 m2)
        end
  end.

(** ** Further vocabulary *)

(** A binary64 number that is not below zero (a NaN is not). *)
Definition nonneg (x : float) : Prop := (x <? 0)%float = false.

Definition sf_nonneg (p : spec_float) : Prop := SFltb p (S754_zero false) = false.

(** The square of [x], as [x ** 2] computes it, is out of range. *)
Definition square_overflows (x : float) : bool :=
  match float_pow2 x with
  | Ok _ => false
  | Raise _ => true
  end.

Definition finite_vector (a : vec) : bool := forallb PrimFloat.is_finite a.

(** [s] does not begin with a whitespace character, as [p1], [p2] and [p3]
    recognise them. *)
Definition starts_clean (p1 : ascii -> bool) (p2 : ascii -> ascii -> bool)
    (p3 : ascii -> ascii -> ascii -> bool) (s : string) : bool :=
  match s with
  | EmptyString => true
  | String a s1 =>
      negb (p1 a)
      && match s1 with
         | EmptyString => true
         | String b s2 =>
             negb (p2 a b)
             && match s2 with
                | EmptyString => true
                | String c _ => negb (p3 a b c)
                end
         end
  end.

(** [c in s] for a character. *)
Fixpoint has_char (c : ascii) (s : string) : bool :=
  match s with
  | EmptyString => false
  | String a s' => Ascii.eqb a c || has_char c s'
  end.

(** The text that [generate_world] sends to the embedding provider for a
    reconciled record. *)
Definition embedding_input `{PyRuntime} (world : dict json) : result string :=
  summary <- dict_item "summary" world ;;
  biome <- dict_item "biome" world ;;
  culture <- dict_item "culture" world ;;
  myth <- dict_item "myth" world ;;
  Ok (format_value summary ++ " " ++ format_value biome ++ " "
      ++ format_value culture ++ " " ++ format_value myth).

(** What [function_call] finds in the answer of the tool-calling request:
    no usable call, a call it fails on (the request itself failed, an
    argument is missing, or the tone is not a string), or a call to
    [generateWorld] with its three arguments. *)
Inductive ToolRequest : Type :=
| NoCall
| BadCall
| Call (fn : FunctionCall) (biome culture : json) (tone : string).

Definition tool_request (reply : ToolReply) : ToolRequest :=
  match reply with
  | ToolFailure _ => BadCall
  | ToolResponse None => NoCall
  | ToolResponse (Some fn) =>
      if (fc_name fn =? "generateWorld")%string then
        match dict_get "biome" (fc_args fn), dict_get "culture" (fc_args fn),
              dict_get "tone" (fc_args fn) with
        | Some biome, Some culture, Some (JStr tone) => Call fn biome culture tone
        | _, _, _ => BadCall
        end
      else NoCall
  end.

(** The entry that both generating routes append for a result of
    [generate_world] when [n] worlds are stored. *)
Definition full_world (n : nat) (res : GenResult) : World :=
  {| id := Z.of_nat n + 1;
     reasoning := gr_reasoning res;
     fields := gr_world res;
     embedding := gr_embedding res |}.

(** Provider calls that a request makes: the least and the greatest number. *)
Definition call_budget (r : Request) : nat * nat :=
  match r with
  | GetWorlds => (0, 0)
  | PostGenerateWorld _ => (2, 4)
  | PostSimilarDot _ | PostSimilarCosine _ | PostSimilarL2 _ => (1, 3)
  | PostFunctionCall _ => (1, 5)
  end%nat.

(** How a stored world came about: its reasoning is stripped and holds no
    opening brace, and its embedding, when present, is the provider's answer
    to the text made of its own summary, biome, culture and myth. *)
Definition well_formed `{PyRuntime} (P : Provider) (w : World) : Prop :=
  strip (reasoning w) = reasoning w
  /\ has_char "{" (reasoning w) = false
  /\ exists text,
       embedding_input (fields w) = Ok text
       /\ forall v, embedding w = Some v ->
                    exists n, embed_content P n text = Embedding v.

(** [len(l[:n])] for a list of [len] entries. *)
Definition take_count (n : Z) (len : nat) : nat :=
  if n <? 0 then len - Z.to_nat (- n) else Nat.min (Z.to_nat n) len.

(** The exceptions that a similarity endpoint can raise on worlds stored by
    the service, by metric and query embedding. *)
Definition may_raise (k : Metric) (q : option vec) (e : exn) : Prop :=
  match q, k with
  | None, _ => e = TypeError
  | Some _, Dot => False
  | Some _, Cosine => e = ZeroDivisionError
  | Some _, L2 => e = OverflowError
  end.

Definition generates (r : Request) : bool :=
  match r with
  | PostGenerateWorld _ => true
  | _ => false
  end.

Definition may_generate (r : Request) : bool :=
  match r with
  | PostGenerateWorld _ | PostFunctionCall _ => true
  | _ => false
  end.

(** * Properties *)

(** ** Dictionaries *)

Section DictFacts.

Context {V : Type}.

Lemma dict_get_keys (k : string) (d : dict V) :
  In k (dict_keys d) <-> dict_get k d <> None.
Proof.
  induction d as [|[k' v] d IH]; simpl.
  - split; [intros [] | congruence].
  - destruct (String.eqb_spec k' k) as [->|Hne].
    + split; [congruence | auto].
    + rewrite <- IH. split; [intros [?|?]; [contradiction | assumption] | auto].
Qed.

Lemma dict_set_keys (k : string) (v : V) (d : dict V) :
  In k (dict_keys d) -> dict_keys (dict_set k v d) = dict_keys d.
Proof.
  induction d as [|[k' v'] d IH]; simpl; [intros [] |].
  intros Hin. destruct (String.eqb_spec k' k) as [->|Hne]; simpl; [reflexivity |].
  f_equal. apply IH. destruct Hin; [contradiction | assumption].
Qed.

Lemma dict_get_set_same (k : string) (v : V) (d : dict V) :
  dict_get k (dict_set k v d) = Some v.
Proof.
  induction d as [|[k' v'] d IH]; simpl.
  - now rewrite String.eqb_refl.
  - destruct (String.eqb_spec k' k) as [->|Hne]; simpl.
    + now rewrite String.eqb_refl.
    + destruct (String.eqb_spec k' k); [contradiction | exact IH].
Qed.

Lemma dict_get_set_other (k k0 : string) (v : V) (d : dict V) :
  k0 <> k -> dict_get k0 (dict_set k v d) = dict_get k0 d.
Proof.
  intros Hne. induction d as [|[k' v'] d IH]; simpl.
  - destruct (String.eqb_spec k k0); [congruence | reflexivity].
  - destruct (String.eqb_spec k' k) as [->|Hk]; simpl.
    + destruct (String.eqb_spec k k0); [congruence | reflexivity].
    + destruct (String.eqb_spec k' k0); [reflexivity | exact IH].
Qed.

Lemma dict_item_keys (k : string) (d : dict V) :
  In k (dict_keys d) -> exists v, dict_item k d = Ok v.
Proof.
  intros Hin. apply dict_get_keys in Hin. unfold dict_item.
  destruct (dict_get k d) as [v|]; [now exists v | congruence].
Qed.

End DictFacts.

(** ** The loop over the known keys *)

Section Merge.

Variable parsed : dict json.

Lemma merge_step_keys (w : dict json) (key : string) :
  In key (dict_keys w) -> dict_keys (merge_step parsed w key) = dict_keys w.
Proof.
  intros Hin. unfold merge_step.
  destruct (dict_get key parsed); [now apply dict_set_keys | reflexivity].
Qed.

Lemma merge_fold_keys (ks : list string) (w : dict json) :
  incl ks (dict_keys w) ->
  dict_keys (fold_left (merge_step parsed) ks w) = dict_keys w.
Proof.
  revert w. induction ks as [|key ks IH]; intros w Hincl; simpl; [reflexivity |].
  assert (Hkey : In key (dict_keys w)) by (apply Hincl; now left).
  rewrite IH; [now apply merge_step_keys |].
  rewrite merge_step_keys by assumption.
  intros x Hx. apply Hincl. now right.
Qed.

Lemma merge_fold_get (ks : list string) (w : dict json) (k : string) :
  incl ks (dict_keys w) ->
  dict_get k (fold_left (merge_step parsed) ks w) =
  if in_dec string_dec k ks
  then match dict_get k parsed with
       | Some v => Some v
       | None => dict_get k w
       end
  else dict_get k w.
Proof.
  revert w. induction ks as [|key ks IH]; intros w Hincl; [reflexivity |].
  assert (Hkey : In key (dict_keys w)) by (apply Hincl; now left).
  cbn [fold_left]. rewrite IH.
  2:{ rewrite merge_step_keys by assumption. intros x Hx. apply Hincl. now right. }
  assert (Hstep : forall k0, dict_get k0 (merge_step parsed w key) =
                    if string_dec key k0
                    then match dict_get k0 parsed with
                         | Some v => Some v
                         | None => dict_get k0 w
                         end
                    else dict_get k0 w).
  { intros k0. unfold merge_step. destruct (string_dec key k0) as [->|Hne].
    - destruct (dict_get k0 parsed); [apply dict_get_set_same | reflexivity].
    - destruct (dict_get key parsed); [apply dict_get_set_other; congruence | reflexivity]. }
  rewrite Hstep.
  destruct (in_dec string_dec k ks) as [Hin|Hnin];
    destruct (in_dec string_dec k (key :: ks)) as [Hin'|Hnin'];
    destruct (string_dec key k) as [->|Hne];
    try reflexivity;
    try (destruct (dict_get k parsed); reflexivity);
    try (exfalso; apply Hnin'; simpl; auto; fail).
  destruct Hin' as [?|?]; [congruence | contradiction].
Qed.

End Merge.

(** ** Searching and slicing *)

Lemma find_from_found (c : ascii) (s : string) (i j : Z) (m : nat) :
  find_from c s i = j -> j <> -1 -> 0 <= i ->
  i <= j /\ exists rest, substring (Z.to_nat (j - i)) (S m) s = String c rest.
Proof.
  revert i. induction s as [|a s IH]; intros i Hfind Hj Hi; simpl in Hfind.
  - congruence.
  - destruct (Ascii.eqb_spec a c) as [->|Hne].
    + subst j. split; [lia |]. rewrite Z.sub_diag. simpl. eauto.
    + destruct (IH (i + 1) Hfind Hj ltac:(lia)) as [Hle [rest Hrest]].
      split; [lia |]. exists rest.
      replace (Z.to_nat (j - i)) with (S (Z.to_nat (j - (i + 1)))) by lia.
      exact Hrest.
Qed.

Lemma slice_from_brace (text : string) (hi : Z) :
  let start := str_find "{" text in
  0 <= start < hi ->
  exists rest, slice text start hi = String "{" rest.
Proof.
  intros start Hrange. unfold slice.
  destruct (find_from_found "{" text 0 start (Z.to_nat (hi - start) - 1)
              eq_refl ltac:(lia) ltac:(lia)) as [_ [rest Hrest]].
  exists rest. rewrite Z.sub_0_r in Hrest.
  replace (Z.to_nat (hi - start)) with (S (Z.to_nat (hi - start) - 1)) by lia.
  exact Hrest.
Qed.

Lemma prefix_occurs (needle hay : string) :
  prefix needle hay = true <-> exists after, hay = needle ++ after.
Proof.
  revert hay. induction needle as [|a needle IH]; intros [|b hay]; cbn.
  - split; [now exists EmptyString | reflexivity].
  - split; [now exists (String b hay) | reflexivity].
  - split; [discriminate | intros [after H]; discriminate].
  - destruct (ascii_dec a b) as [->|Hne].
    + rewrite IH. split; intros [after H]; exists after; congruence.
    + split; [discriminate | intros [after H]; congruence].
Qed.

(** The test [needle in hay] of the code holds exactly when [needle] occurs
    in [hay]. *)
Lemma contains_occurs (needle hay : string) :
  contains needle hay = true <-> occurs needle hay.
Proof.
  split.
  - induction hay as [|c hay IH]; cbn [contains]; intros H;
      apply orb_true_iff in H; destruct H as [H | H]; try discriminate.
    + apply prefix_occurs in H. destruct H as [after H]. now exists EmptyString, after.
    + apply prefix_occurs in H. destruct H as [after H]. now exists EmptyString, after.
    + destruct (IH H) as [before [after ->]]. now exists (String c before), after.
  - intros [before [after ->]]. induction before as [|c before IH].
    + assert (H : prefix needle (needle ++ after) = true)
        by (apply prefix_occurs; eauto).
      cbn [append]. destruct (needle ++ after); cbn [contains]; now rewrite H.
    + cbn [append contains]. rewrite IH. apply orb_true_r.
Qed.

(** ** Reconciliation *)

Section Reconcile.

Context {R : PyRuntime}.

Lemma update_known_keys_keys (world : dict json) (parsed_world : json) :
  dict_keys (fst (update_known_keys world parsed_world)) = dict_keys world.
Proof.
  destruct parsed_world; simpl; try reflexivity.
  apply merge_fold_keys, incl_refl.
Qed.

Lemma reconcile_keys (text : string) (world : dict json) :
  dict_keys (snd (fst (reconcile text world))) = dict_keys world.
Proof.
  unfold reconcile. destruct (extract_json_and_reasoning text) as [[r p]|]; [| reflexivity].
  pose proof (update_known_keys_keys world p) as H.
  destruct (update_known_keys world p) as [w e]. exact H.
Qed.

Lemma extract_fails (text : string) :
  str_find "{" text = -1 \/ str_rfind "}" text = -1
  \/ str_rfind "}" text <= str_find "{" text
  \/ json_loads (slice text (str_find "{" text) (str_rfind "}" text + 1)) = None ->
  extract_json_and_reasoning text = None.
Proof.
  intros H. unfold extract_json_and_reasoning.
  destruct (str_find "{" text =? -1) eqn:E1; [reflexivity |].
  destruct (str_rfind "}" text =? -1) eqn:E2; [reflexivity |].
  destruct (str_rfind "}" text <=? str_find "{" text) eqn:E3; [reflexivity |].
  simpl. destruct H as [H | [H | [H | H]]]; [lia | lia | lia |].
  now rewrite H.
Qed.

Lemma extract_succeeds (text : string) (parsed : json) :
  0 <= str_find "{" text < str_rfind "}" text ->
  json_loads (slice text (str_find "{" text) (str_rfind "}" text + 1)) = Some parsed ->
  extract_json_and_reasoning text
  = Some (strip (slice text 0 (str_find "{" text)), parsed).
Proof.
  intros Hrange Hloads. unfold extract_json_and_reasoning.
  destruct (str_find "{" text =? -1) eqn:E1; [lia |].
  destruct (str_rfind "}" text =? -1) eqn:E2; [lia |].
  destruct (str_rfind "}" text <=? str_find "{" text) eqn:E3; [lia |].
  simpl. now rewrite Hloads.
Qed.

Lemma reconcile_fails (text : string) (defaults : dict json) :
  extract_json_and_reasoning text = None ->
  reconcile text defaults = ("", defaults, None).
Proof. intros H. unfold reconcile. now rewrite H. Qed.

End Reconcile.

(** ** The embedding request *)

Section Embedding.

Context (P : Provider).

Lemma server_eq (w : list World) (c c' : nat) (l l' : list Event) :
  c = c' -> l = l' ->
  {| worlds := w; calls := c; log := l |} = {| worlds := w; calls := c'; log := l' |}.
Proof. now intros -> ->. Qed.

Lemma embed_loop_total (text : string) (attempts : list nat) (st : Server) :
  exists r st',
    embed_loop P text attempts st = (Ok r, st') /\ worlds st' = worlds st.
Proof.
  revert st. induction attempts as [|attempt rest IH]; intros st; cbn [embed_loop].
  - unfold ret. eauto.
  - destruct (embed_content P (calls st) text) as [v|msg]; [eauto |].
    destruct (contains "429" msg && (attempt <? 2)%nat); [| eauto].
    destruct (IH (emit (EvSleep (2 ^ Z.of_nat attempt))
                    (tick (EvEmbed text (EmbedFailure msg)) st)))
      as [r [st' [H Hw]]].
    eauto.
Qed.

Lemma embed_text_total (text : string) (st : Server) :
  exists r st',
    embed_text P text st = (Ok r, st') /\ worlds st' = worlds st.
Proof. apply embed_loop_total. Qed.

Ltac close_trace :=
  unfold emit, tick; cbn;
  repeat match goal with
         | |- context [(?n + 0)%nat] => rewrite (PeanoNat.Nat.add_0_r n)
         | |- context [(?n + 1)%nat] => rewrite (PeanoNat.Nat.add_1_r n)
         | |- context [(?n + 2)%nat] =>
             replace (n + 2)%nat with (S (S n)) by lia
         | H : embed_content _ _ _ = _ |- _ => rewrite H
         end;
  repeat split;
  try lia; try discriminate;
  try (repeat constructor; cbn; now apply contains_occurs);
  try (let H := fresh in
       intros H; cbn in H;
       first [ contradiction | reflexivity
             | apply contains_occurs in H; congruence ]);
  try (f_equal; apply server_eq;
       [lia | now rewrite ?app_nil_r, <- ?app_assoc]).

(** C9, as the code has it: a call of [embed_text] makes between one and
    three provider attempts, each with the given text; every attempt that is
    followed by another one failed with a text in which [429] occurs; the
    attempts are separated by sleeps of 1 and then 2 seconds and by nothing
    else; the call never raises and returns the embedding of the last
    attempt when that succeeded and [None] when it failed; and a last
    attempt that failed with a text in which [429] occurs is the third one.
    So a failure without [429] in its text ends the call at once, and a
    failure with [429] in its text is retried, whatever the failure is. The
    stored worlds are untouched. *)
Theorem embed_text_retry_policy (text : string) (st : Server) :
  exists attempts : list EmbedReply,
    (1 <= List.length attempts <= 3)%nat
    /\ attempts = map (fun i => embed_content P (calls st + i) text)
                      (seq 0 (List.length attempts))
    /\ Forall rate_limited (removelast attempts)
    /\ (rate_limited (last attempts (Embedding [])) ->
        List.length attempts = 3%nat)
    /\ embed_text P text st =
       (Ok (embedding_of (last attempts (Embedding []))),
        {| worlds := worlds st;
           calls := calls st + List.length attempts;
           log := log st ++ schedule text 1 attempts
                         ++ report (last attempts (Embedding [])) |}).
Proof.
  unfold embed_text.
  destruct (embed_content P (calls st) text) as [v0|m0] eqn:E0.
  { exists [Embedding v0]. cbn [embed_loop]. rewrite E0. close_trace. }
  destruct (contains "429" m0) eqn:C0.
  2:{ exists [EmbedFailure m0]. cbn [embed_loop]. rewrite E0, C0. close_trace. }
  destruct (embed_content P (S (calls st)) text) as [v1|m1] eqn:E1.
  { exists [EmbedFailure m0; Embedding v1]. cbn [embed_loop].
    rewrite E0, C0. cbn. rewrite E1. close_trace. }
  destruct (contains "429" m1) eqn:C1.
  2:{ exists [EmbedFailure m0; EmbedFailure m1]. cbn [embed_loop].
      rewrite E0, C0. cbn. rewrite E1, C1. close_trace. }
  destruct (embed_content P (S (S (calls st))) text) as [v2|m2] eqn:E2.
  { exists [EmbedFailure m0; EmbedFailure m1; Embedding v2]. cbn [embed_loop].
    rewrite E0, C0. cbn. rewrite E1, C1. cbn. rewrite E2. close_trace. }
  exists [EmbedFailure m0; EmbedFailure m1; EmbedFailure m2]. cbn [embed_loop].
  rewrite E0, C0. cbn. rewrite E1, C1. cbn. rewrite E2.
  rewrite andb_false_r. close_trace.
Qed.

End Embedding.

(** ** World generation *)

Section Generation.

Context {R : PyRuntime} (P : Provider).

Lemma locals_after_keys (reply : GenReply) (world : dict json) :
  dict_keys (snd (locals_after reply world)) = dict_keys world.
Proof.
  destruct reply; [apply reconcile_keys | reflexivity].
Qed.

Lemma build_prompt_str (biome culture : json) (tone : string) :
  exists prompt, build_prompt biome culture (JStr tone) = Ok prompt.
Proof. unfold build_prompt. eauto. Qed.

Lemma generate_world_raises (biome culture tone : json) (e : exn) (st : Server) :
  build_prompt biome culture tone = Raise e ->
  generate_world P biome culture tone st = (Raise e, st).
Proof.
  intros H. unfold generate_world, bind, lift. now rewrite H.
Qed.

Lemma generate_world_returns (biome culture tone : json) (prompt : string)
    (st : Server) :
  build_prompt biome culture tone = Ok prompt ->
  exists e st',
    generate_world P biome culture tone st
    = (Ok {| gr_reasoning :=
               fst (locals_after (generate_content P (calls st) prompt)
                      (fallback_world biome culture tone));
             gr_world :=
               snd (locals_after (generate_content P (calls st) prompt)
                      (fallback_world biome culture tone));
             gr_embedding := e |}, st')
    /\ worlds st' = worlds st.
Proof.
  intros Hprompt.
  pose proof (locals_after_keys (generate_content P (calls st) prompt)
                (fallback_world biome culture tone)) as Hkeys.
  change (dict_keys (fallback_world biome culture tone)) with known_keys in Hkeys.
  unfold generate_world, bind, lift. rewrite Hprompt.
  set (reply := generate_content P (calls st) prompt) in *.
  set (world := fallback_world biome culture tone) in *.
  assert (Hstep : exists st1,
    match reply with
    | GenText text =>
        match reconcile text world with
        | (r, w, None) => (Ok (r, w), tick (EvGenerate prompt reply) st)
        | (r, w, Some _) =>
            (Ok (r, w),
             emit (EvPrint "Gemini generation error:")
               (tick (EvGenerate prompt reply) st))
        end
    | GenFailure _ =>
        (Ok ("", world),
         emit (EvPrint "Gemini generation error:")
           (tick (EvGenerate prompt reply) st))
    end = (Ok (locals_after reply world), st1) /\ worlds st1 = worlds st).
  { unfold locals_after. destruct reply as [text|msg]; [| eauto].
    destruct (reconcile text world) as [[r w] [x|]]; eauto. }
  destruct Hstep as [st1 [Hstep Hw1]]. rewrite Hstep.
  destruct (locals_after reply world) as [r w]. cbn [fst snd] in *.
  assert (Hitem : forall k, In k known_keys -> exists v, dict_item k w = Ok v).
  { intros k Hk. apply dict_item_keys. now rewrite Hkeys. }
  destruct (Hitem "summary" ltac:(simpl; auto)) as [v1 ->].
  destruct (Hitem "biome" ltac:(simpl; auto)) as [v2 ->].
  destruct (Hitem "culture" ltac:(simpl; auto)) as [v3 ->].
  destruct (Hitem "myth" ltac:(simpl; auto 6)) as [v4 ->].
  match goal with
  | |- context [embed_text P ?t st1] =>
      destruct (embed_text_total P t st1) as [e [st2 [He Hw2]]]; rewrite He
  end.
  exists e, st2. split; [reflexivity | congruence].
Qed.

(** C1: for a decoder that, like [json.loads], turns a text beginning with
    a brace into an object or fails: when the first opening brace of the text
    precedes its last closing brace and the text between them (inclusive)
    decodes, the decoded value is an object and reconciliation yields the
    text before the brace, stripped, as reasoning, together with a record
    that has exactly the keys of the defaults: a key of the defaults takes
    the object's value when the object has that key and keeps its default
    otherwise, and a key that the defaults lack is absent from the record
    whatever the object holds. No exception leaves the block, and
    [generate_world], given that text by the provider, returns this
    reasoning and the record reconciled from its fallback record. *)
Theorem reconcile_overwrites_known_keys
    (HR : loads_object_on_brace R) (text : string) (parsed : json) :
  0 <= str_find "{" text < str_rfind "}" text ->
  json_loads (slice text (str_find "{" text) (str_rfind "}" text + 1)) = Some parsed ->
  exists obj,
    parsed = JObj obj
    /\ (forall defaults, exists record,
          reconcile text defaults
          = (strip (slice text 0 (str_find "{" text)), record, None)
          /\ dict_keys record = dict_keys defaults
          /\ forall k,
               dict_get k record =
               match dict_get k defaults, dict_get k obj with
               | Some _, Some v => Some v
               | Some d, None => Some d
               | None, _ => None
               end)
    /\ forall (biome culture : json) (tone prompt : string) (st : Server),
         build_prompt biome culture (JStr tone) = Ok prompt ->
         generate_content P (calls st) prompt = GenText text ->
         exists e st',
           generate_world P biome culture (JStr tone) st
           = (Ok {| gr_reasoning := strip (slice text 0 (str_find "{" text));
                    gr_world :=
                      snd (fst (reconcile text
                                  (fallback_world biome culture (JStr tone))));
                    gr_embedding := e |}, st').
Proof.
  intros Hrange Hloads.
  destruct (slice_from_brace text (str_rfind "}" text + 1) ltac:(lia)) as [rest Hrest].
  assert (Hobj : exists obj, parsed = JObj obj).
  { apply (HR rest). now rewrite <- Hrest. }
  destruct Hobj as [obj ->]. exists obj. split; [reflexivity |].
  assert (Hrec : forall defaults,
            reconcile text defaults
            = (strip (slice text 0 (str_find "{" text)),
               fold_left (merge_step obj) (dict_keys defaults) defaults, None)).
  { intros defaults. unfold reconcile.
    now rewrite (extract_succeeds text (JObj obj) Hrange Hloads). }
  split.
  - intros defaults.
    exists (fold_left (merge_step obj) (dict_keys defaults) defaults).
    split; [apply Hrec |].
    split; [apply merge_fold_keys, incl_refl |].
    intros k. rewrite merge_fold_get by apply incl_refl.
    destruct (in_dec string_dec k (dict_keys defaults)) as [Hin|Hnin].
    + apply dict_get_keys in Hin.
      destruct (dict_get k defaults); [| congruence].
      now destruct (dict_get k obj).
    + destruct (dict_get k defaults) eqn:E; [| reflexivity].
      exfalso. apply Hnin, dict_get_keys. congruence.
  - intros biome culture tone prompt st Hprompt Hreply.
    destruct (generate_world_returns _ _ _ prompt st Hprompt) as [e [st' [H _]]].
    rewrite Hreply in H. unfold locals_after in H. rewrite Hrec in H.
    rewrite Hrec. eauto.
Qed.

(** C2: when the text has no opening brace, or no closing brace, or its last
    closing brace does not come after its first opening brace, or the text
    between them does not decode, reconciliation leaves the reasoning empty
    and the defaults as they were, and no exception leaves the block; and
    [generate_world], given that text by the provider, returns normally with
    empty reasoning and the fallback record. *)
Theorem malformed_response_falls_back (text : string) :
  str_find "{" text = -1 \/ str_rfind "}" text = -1
  \/ str_rfind "}" text <= str_find "{" text
  \/ json_loads (slice text (str_find "{" text) (str_rfind "}" text + 1)) = None ->
  (forall defaults, reconcile text defaults = ("", defaults, None))
  /\ forall (biome culture : json) (tone prompt : string) (st : Server),
       build_prompt biome culture (JStr tone) = Ok prompt ->
       generate_content P (calls st) prompt = GenText text ->
       exists e st',
         generate_world P biome culture (JStr tone) st
         = (Ok {| gr_reasoning := "";
                  gr_world := fallback_world biome culture (JStr tone);
                  gr_embedding := e |}, st').
Proof.
  intros Hbad. apply extract_fails in Hbad.
  split; [intros defaults; now apply reconcile_fails |].
  intros biome culture tone prompt st Hprompt Hreply.
  destruct (generate_world_returns _ _ _ prompt st Hprompt) as [e [st' [H _]]].
  rewrite Hreply in H. unfold locals_after in H.
  rewrite (reconcile_fails text _ Hbad) in H. eauto.
Qed.

(** C3: when the call of the generative model raises, [generate_world]
    returns normally: its reasoning is the empty string, and its record holds
    the two fallback literals as summary and myth and the caller's biome,
    culture and tone. The stored worlds are untouched. *)
Theorem generation_failure_falls_back (biome culture : json)
    (tone prompt msg : string) (st : Server) :
  build_prompt biome culture (JStr tone) = Ok prompt ->
  generate_content P (calls st) prompt = GenFailure msg ->
  exists e st',
    generate_world P biome culture (JStr tone) st
    = (Ok {| gr_reasoning := "";
             gr_world :=
               [ ("summary",
                  JStr "A mystical desert world shaped by nomadic wisdom.");
                 ("biome", biome);
                 ("culture", culture);
                 ("tone", JStr tone);
                 ("myth",
                  JStr "The Whispering Wind guides lost souls to hidden sanctuaries.") ];
             gr_embedding := e |}, st')
    /\ worlds st' = worlds st.
Proof.
  intros Hprompt Hreply.
  destruct (generate_world_returns _ _ _ prompt st Hprompt) as [e [st' [H Hw]]].
  rewrite Hreply in H. eauto.
Qed.

End Generation.

(** ** Order and zeros of binary64 *)

Section FloatFacts.

Lemma cmp_em_spec e1 m1 e2 m2 :
  CompareSpec (e1 = e2 /\ m1 = m2)
              (e1 < e2 \/ (e1 = e2 /\ (m1 < m2)%positive))
              (e2 < e1 \/ (e1 = e2 /\ (m2 < m1)%positive))
              (cmp_em e1 m1 e2 m2).
Proof.
  unfold cmp_em.
  destruct (Z.compare_spec e1 e2); [| constructor; lia | constructor; lia].
  destruct (Pos.compare_spec m1 m2); constructor; lia.
Qed.

Lemma SFcompare_cmp f1 f2 : SFcompare f1 f2 = sf_cmp f1 f2.
Proof.
  destruct f1 as [s1|s1| |s1 m1 e1], f2 as [s2|s2| |s2 m2 e2]; try reflexivity.
  destruct s1, s2; try reflexivity; unfold SFcompare, sf_cmp, cmp_em;
    destruct (e1 ?= e2); reflexivity.
Qed.

Ltac sf_cases :=
  unfold SFltb, SFeqb in *; rewrite ?SFcompare_cmp in *;
  repeat match goal with
         | x : spec_float |- _ => destruct x
         end;
  repeat match goal with
         | s : bool |- _ => destruct s
         end;
  simpl in *; try reflexivity; try discriminate; try congruence;
  repeat match goal with
         | |- context [cmp_em ?e1 ?m1 ?e2 ?m2] => destruct (cmp_em_spec e1 m1 e2 m2)
         | H : context [cmp_em ?e1 ?m1 ?e2 ?m2] |- _ => destruct (cmp_em_spec e1 m1 e2 m2)
         end;
  simpl in *; try reflexivity; try discriminate; try lia.

Lemma SFltb_asym x y : SFltb x y = true -> SFltb y x = false.
Proof. intros H. sf_cases. Qed.

Lemma SFltb_opp x y : SFltb (SFopp x) (SFopp y) = SFltb y x.
Proof. sf_cases. Qed.

Lemma SFeqb_not_ltb x y s :
  SFeqb x s = true -> SFeqb y s = true -> SFltb y x = false.
Proof. intros H1 H2. sf_cases. Qed.

Lemma SFeqb_opp x s : SFeqb (SFopp x) (SFopp s) = SFeqb x s.
Proof. sf_cases. Qed.

Lemma SFeqb_refl x : x <> S754_nan -> SFeqb x x = true.
Proof. intros Hx. sf_cases. Qed.

Lemma SFeqb_sym x y : SFeqb x y = SFeqb y x.
Proof. sf_cases. Qed.

Lemma SFeqb_total x y :
  x <> S754_nan -> y <> S754_nan ->
  SFltb x y = false -> SFltb y x = false -> SFeqb x y = true.
Proof. intros Hx Hy H1 H2. sf_cases. Qed.

Lemma SFgeb_trans x y z :
  x <> S754_nan -> y <> S754_nan -> z <> S754_nan ->
  SFltb x y = false -> SFltb y z = false -> SFltb x z = false.
Proof. intros Hx Hy Hz H1 H2. sf_cases. Qed.

Local Open Scope float_scope.

Lemma ltb_asym (x y : float) : (x <? y) = true -> (y <? x) = false.
Proof. rewrite !ltb_spec. apply SFltb_asym. Qed.

Lemma ltb_opp (x y : float) : (- x <? - y) = (y <? x).
Proof. rewrite !ltb_spec, !opp_spec. apply SFltb_opp. Qed.

Lemma eqb_not_ltb (x y s : float) :
  (x =? s) = true -> (y =? s) = true -> (y <? x) = false.
Proof. rewrite !eqb_spec, ltb_spec. apply SFeqb_not_ltb. Qed.

Lemma eqb_opp (x s : float) : (- x =? - s) = (x =? s).
Proof. rewrite !eqb_spec, !opp_spec. apply SFeqb_opp. Qed.

Lemma is_nan_spec (x : float) :
  PrimFloat.is_nan x = false -> Prim2SF x <> S754_nan.
Proof.
  unfold PrimFloat.is_nan. rewrite eqb_spec. intros H E. rewrite E in H.
  discriminate.
Qed.

Lemma is_nan_opp (x : float) : PrimFloat.is_nan (- x) = PrimFloat.is_nan x.
Proof.
  unfold PrimFloat.is_nan. rewrite !eqb_spec, opp_spec.
  now destruct (Prim2SF x) as [[]|[]| |[] m e]; sf_cases.
Qed.

Lemma geb_trans (x y z : float) :
  PrimFloat.is_nan x = false -> PrimFloat.is_nan y = false ->
  PrimFloat.is_nan z = false ->
  (x <? y) = false -> (y <? z) = false -> (x <? z) = false.
Proof.
  intros Hx Hy Hz. rewrite !ltb_spec.
  apply SFgeb_trans; now apply is_nan_spec.
Qed.

Lemma eqb_refl (x : float) : PrimFloat.is_nan x = false -> (x =? x) = true.
Proof. intros Hx. rewrite eqb_spec. now apply SFeqb_refl, is_nan_spec. Qed.

Lemma eqb_sym (x y : float) : (x =? y) = (y =? x).
Proof. rewrite !eqb_spec. apply SFeqb_sym. Qed.

Lemma eqb_total (x y : float) :
  PrimFloat.is_nan x = false -> PrimFloat.is_nan y = false ->
  (x <? y) = false -> (y <? x) = false -> (x =? y) = true.
Proof.
  intros Hx Hy. rewrite !ltb_spec, eqb_spec.
  apply SFeqb_total; now apply is_nan_spec.
Qed.

Lemma is_zero_cases (x : float) :
  PrimFloat.is_zero x = true -> x = 0 \/ x = (-0).
Proof.
  unfold PrimFloat.is_zero. rewrite eqb_spec.
  change (Prim2SF zero) with (S754_zero false).
  intros H. rewrite <- (SF2Prim_Prim2SF x).
  destruct (Prim2SF x) as [[]|[]| |[] m e]; try discriminate H.
  - right. reflexivity.
  - left. reflexivity.
Qed.

Lemma is_finite_spec (y : float) :
  PrimFloat.is_finite y = true ->
  (exists s, Prim2SF y = S754_zero s) \/ (exists s m e, Prim2SF y = S754_finite s m e).
Proof.
  unfold PrimFloat.is_finite, PrimFloat.is_nan, PrimFloat.is_infinity.
  rewrite !eqb_spec, abs_spec.
  change (Prim2SF infinity) with (S754_infinity false).
  destruct (Prim2SF y) as [s|s| |s m e]; eauto.
  - destruct s; discriminate.
  - discriminate.
Qed.

Lemma mul_zero_finite (y : float) :
  PrimFloat.is_finite y = true ->
  PrimFloat.is_zero (0 * y) = true /\ PrimFloat.is_zero (y * 0) = true.
Proof.
  intros Hy. unfold PrimFloat.is_zero. rewrite !eqb_spec, !mul_spec.
  change (Prim2SF zero) with (S754_zero false).
  change (Prim2SF 0) with (S754_zero false).
  destruct (is_finite_spec y Hy) as [[s ->] | [s [m [e ->]]]];
    destruct s; split; reflexivity.
Qed.

End FloatFacts.

(** ** The similarity functions *)

Section Metrics.

Local Open Scope float_scope.

Lemma combine_common_prefix {A B} (a : list A) (b : list B) :
  let n := Nat.min (List.length a) (List.length b) in
  combine (firstn n a) (firstn n b) = combine a b.
Proof.
  revert b. induction a as [|x a IH]; intros [|y b]; simpl; try reflexivity.
  f_equal. apply IH.
Qed.

(** C5, as the code has it: on vectors of any two lengths [dot_product]
    returns a number and [euclidean_distance] does what it does on the two
    vectors cut to the shorter length; neither looks at what lies beyond the
    common prefix, and neither reports a difference in length. *)
Theorem metrics_use_common_prefix (a b : vec) :
  let n := Nat.min (List.length a) (List.length b) in
  (exists v, dot_product (Some a) (Some b) = Ok v)
  /\ dot_product (Some a) (Some b)
     = dot_product (Some (firstn n a)) (Some (firstn n b))
  /\ euclidean_distance (Some a) (Some b)
     = euclidean_distance (Some (firstn n a)) (Some (firstn n b)).
Proof.
  intros n. unfold dot_product, euclidean_distance, py_zip. cbn [rbind].
  unfold n. rewrite combine_common_prefix. eauto.
Qed.

(** C5, as stated, fails: vectors of lengths 3 and 2, and of lengths 3 and
    1, are accepted and a number is returned. *)
Lemma mismatched_lengths_are_accepted :
  List.length [1; 2; 3] <> List.length [4; 5]
  /\ dot_product (Some [1; 2; 3]) (Some [4; 5]) = Ok 14
  /\ List.length [0; 3; 7] <> List.length [4]
  /\ euclidean_distance (Some [0; 3; 7]) (Some [4]) = Ok 4.
Proof. repeat split; discriminate. Qed.

Lemma zero_vector_dot (a : vec) :
  zero_vector a = true -> dot_product (Some a) (Some a) = Ok 0.
Proof.
  intros Hz. unfold dot_product, py_zip, py_sum. cbn [rbind]. f_equal.
  generalize dependent a.
  induction a as [|x a IH]; intros Hz; [reflexivity |].
  simpl in Hz. apply andb_true_iff in Hz. destruct Hz as [Hx Ha].
  cbn [combine map fold_left fst snd].
  destruct (is_zero_cases x Hx) as [-> | ->];
    (change (0 + 0 * 0) with 0 || change (0 + -0 * -0) with 0); now apply IH.
Qed.

Lemma zero_vector_norm (a : vec) : zero_vector a = true -> norm a = Ok 0.
Proof. intros Hz. unfold norm. now rewrite zero_vector_dot. Qed.

Lemma dot_product_returns (a b : vec) :
  exists v, dot_product (Some a) (Some b) = Ok v.
Proof. unfold dot_product, py_zip. cbn [rbind]. eauto. Qed.

Lemma cosine_by_norms (a b : vec) :
  cosine_similarity (Some a) (Some b)
  = (d <- dot_product (Some a) (Some b) ;;
     na <- norm a ;;
     nb <- norm b ;;
     float_div d (na * nb)).
Proof.
  unfold cosine_similarity, norm.
  destruct (dot_product (Some a) (Some b)); [| reflexivity]. cbn [rbind].
  destruct (dot_product (Some a) (Some a)) as [aa|]; [| reflexivity].
  cbn [rbind]. destruct (math_sqrt aa); reflexivity.
Qed.

(** C6, as the code has it: when one of two vectors of equal length is a
    zero vector and the norm of the other one, as computed, is finite,
    [cosine_similarity] raises [ZeroDivisionError]. *)
Theorem cosine_of_zero_vector_raises (a b : vec) :
  List.length a = List.length b ->
  (zero_vector a = true /\ finite_norm b = true)
  \/ (zero_vector b = true /\ finite_norm a = true) ->
  cosine_similarity (Some a) (Some b) = Raise ZeroDivisionError.
Proof.
  intros _ Hzero. rewrite cosine_by_norms.
  destruct (dot_product_returns a b) as [d ->]. cbn [rbind].
  unfold finite_norm in Hzero.
  destruct Hzero as [[Hz Hfin] | [Hz Hfin]];
    rewrite (zero_vector_norm _ Hz); cbn [rbind].
  - destruct (norm b) as [nb|]; [| discriminate]. cbn [rbind].
    unfold float_div. now rewrite (proj1 (mul_zero_finite nb Hfin)).
  - destruct (norm a) as [na|]; [| discriminate]. cbn [rbind].
    unfold float_div. now rewrite (proj2 (mul_zero_finite na Hfin)).
Qed.

(** C6, as stated, fails: with the zero vector [[0.0]] and the vector
    [[2.0**600]], whose square overflows, the denominator is [0 * inf], not
    a zero, and [cosine_similarity] returns a NaN. *)
Lemma cosine_of_zero_vector_can_be_nan :
  List.length [0] = List.length [0x1p+600]
  /\ zero_vector [0] = true
  /\ exists v, cosine_similarity (Some [0]) (Some [0x1p+600]) = Ok v
               /\ PrimFloat.is_nan v = true.
Proof.
  split; [reflexivity |]. split; [reflexivity |].
  exists nan. split; reflexivity.
Qed.

End Metrics.

(** ** Sorting by a float key *)

Section SortBy.

Context {A : Type} (key : A -> float).

Local Open Scope float_scope.

Lemma insert_by_perm (x : A) (l : list A) :
  Permutation (x :: l) (insert_by key x l).
Proof.
  induction l as [|y l IH]; simpl; [reflexivity |].
  destruct (key y <? key x); [| reflexivity].
  rewrite perm_swap. now constructor.
Qed.

Lemma sort_by_perm (l : list A) : Permutation l (sort_by key l).
Proof.
  induction l as [|x l IH]; simpl; [reflexivity |].
  rewrite <- insert_by_perm. now constructor.
Qed.

Lemma insert_by_hd (x : A) (l : list A) (a : A) :
  (key_le key) a x -> HdRel (key_le key) a l -> HdRel (key_le key) a (insert_by key x l).
Proof.
  intros Hax Hal. destruct l as [|y l]; simpl; [now constructor |].
  destruct (key y <? key x); constructor; [now inversion Hal | assumption].
Qed.

Lemma insert_by_sorted (x : A) (l : list A) :
  Sorted (key_le key) l -> Sorted (key_le key) (insert_by key x l).
Proof.
  induction l as [|y l IH]; intros Hs; simpl; [repeat constructor |].
  destruct (key y <? key x) eqn:E.
  - inversion Hs; subst. constructor; [now apply IH |].
    apply insert_by_hd; [| assumption]. now apply ltb_asym.
  - constructor; [assumption | now constructor].
Qed.

Lemma sort_by_sorted (l : list A) : Sorted (key_le key) (sort_by key l).
Proof.
  induction l as [|x l IH]; simpl; [constructor | now apply insert_by_sorted].
Qed.

(** Where no key is a NaN, the order of neighbours is the order of all. *)
Lemma sorted_strongly (l : list A) :
  Forall (no_nan key) l -> Sorted (key_le key) l -> StronglySorted (key_le key) l.
Proof.
  induction l as [|a l IH]; intros Hnan Hs; [constructor |].
  inversion Hnan as [|? ? Ha Hl]; subst. inversion Hs as [|? ? Hs' Hhd]; subst.
  specialize (IH Hl Hs'). constructor; [assumption |].
  destruct l as [|y l]; [constructor |].
  inversion Hhd; subst. inversion IH as [|? ? _ Hall]; subst.
  inversion Hl as [|? ? Hy Hl']; subst.
  constructor; [assumption |].
  rewrite Forall_forall in *. intros z Hz. unfold key_le.
  apply (geb_trans _ (key y)); auto.
  - apply (Hl' z Hz).
  - apply (Hall z Hz).
Qed.

(** Stability: elements that [p] selects keep their order, provided no
    selected element has a key below the key of another one. *)
Lemma insert_by_stable (p : A -> bool) (x : A) (l : list A) :
  (forall a b, p a = true -> p b = true -> (key b <? key a) = false) ->
  filter p (insert_by key x l) = filter p (x :: l).
Proof.
  intros Hp. induction l as [|y l IH]; [reflexivity |].
  cbn [insert_by]. destruct (key y <? key x) eqn:E; [| reflexivity].
  cbn [filter] in *. rewrite IH.
  destruct (p x) eqn:Px, (p y) eqn:Py; try reflexivity.
  rewrite (Hp x y Px Py) in E. discriminate.
Qed.

Lemma sort_by_stable (p : A -> bool) (l : list A) :
  (forall a b, p a = true -> p b = true -> (key b <? key a) = false) ->
  filter p (sort_by key l) = filter p l.
Proof.
  intros Hp. induction l as [|x l IH]; [reflexivity |].
  cbn [sort_by]. rewrite insert_by_stable by assumption.
  cbn [filter]. now rewrite IH.
Qed.

(** A list in which no key is below the key before it is left as it is. *)
Lemma sort_by_run (l : list A) : Sorted (key_le key) l -> sort_by key l = l.
Proof.
  induction 1 as [|x l _ IH Hhd]; [reflexivity |].
  cbn [sort_by]. rewrite IH. destruct Hhd as [|y l Hxy]; [reflexivity |].
  cbn [insert_by]. unfold key_le in Hxy. now rewrite Hxy.
Qed.

(** Where no key is a NaN, two arrangements of the same elements that are
    both sorted and that both keep the elements of every key in the same
    order are one and the same. *)
Lemma stable_sort_unique (l1 l2 : list A) :
  Forall (no_nan key) l1 ->
  Permutation l1 l2 ->
  StronglySorted (key_le key) l1 -> StronglySorted (key_le key) l2 ->
  (forall s, filter (fun a => key a =? s) l1 = filter (fun a => key a =? s) l2) ->
  l1 = l2.
Proof.
  revert l2. induction l1 as [|a t1 IH]; intros l2 Hnan Hperm Hs1 Hs2 Hf.
  - now apply Permutation_nil in Hperm.
  - destruct l2 as [|b t2];
      [apply Permutation_sym, Permutation_nil in Hperm; discriminate |].
    inversion Hnan as [|? ? Ha Hnan']; subst.
    inversion Hs1 as [|? ? Hs1' Hall1]; subst.
    inversion Hs2 as [|? ? Hs2' Hall2]; subst.
    rewrite Forall_forall in Hnan', Hall1, Hall2.
    assert (Hb : no_nan key b).
    { destruct (Permutation_in b (Permutation_sym Hperm) (or_introl eq_refl))
        as [<- | Hb]; auto. }
    assert (Hab : (key b <? key a) = false).
    { destruct (Permutation_in b (Permutation_sym Hperm) (or_introl eq_refl))
        as [<- | Hin]; [| now apply Hall1].
      destruct (key a <? key a) eqn:E; [| reflexivity].
      now rewrite (ltb_asym _ _ E) in E. }
    assert (Hba : (key a <? key b) = false).
    { destruct (Permutation_in a Hperm (or_introl eq_refl)) as [<- | Hin];
        [| now apply Hall2].
      destruct (key b <? key b) eqn:E; [| reflexivity].
      now rewrite (ltb_asym _ _ E) in E. }
    assert (Heq : (key b =? key a) = true) by now apply eqb_total.
    pose proof (Hf (key a)) as Hfa. cbn [filter] in Hfa.
    rewrite (eqb_refl _ Ha), Heq in Hfa. injection Hfa as <- _.
    f_equal. apply IH; auto.
    + now apply Forall_forall.
    + now apply Permutation_cons_inv with a.
    + intros s. specialize (Hf s). cbn [filter] in Hf.
      destruct (key a =? s); [now injection Hf | assumption].
Qed.

(** Hence, on keys free of NaN, any stable sort returns what the model
    returns. *)
Lemma any_stable_sort (l l' : list A) :
  Forall (no_nan key) l ->
  Permutation l l' ->
  StronglySorted (key_le key) l' ->
  (forall s, filter (fun a => key a =? s) l' = filter (fun a => key a =? s) l) ->
  l' = sort_by key l.
Proof.
  intros Hnan Hperm Hs Hf. symmetry.
  assert (Hnan' : Forall (no_nan key) (sort_by key l)).
  { apply Forall_forall. intros x Hx. rewrite Forall_forall in Hnan.
    apply Hnan. now apply (Permutation_in x (Permutation_sym (sort_by_perm l))). }
  apply stable_sort_unique; auto.
  - now rewrite <- sort_by_perm.
  - apply sorted_strongly; [assumption | apply sort_by_sorted].
  - intros s. rewrite Hf. apply sort_by_stable.
    intros x y Hx Hy. now apply (eqb_not_ltb _ _ s).
Qed.

End SortBy.

(** ** [list.sort] *)

Section ListSort.

Context {R : PyRuntime} {A : Type} (key : A -> float).

Lemma take_out_perm (i : nat) (l : list A) (x : A) (rest : list A) :
  take_out i l = Some (x, rest) -> Permutation l (x :: rest).
Proof.
  revert i x rest. induction l as [|y l IH]; intros [|i] x rest H; cbn in H;
    try discriminate.
  - now injection H as <- <-.
  - destruct (take_out i l) as [[z rest']|] eqn:E; [| discriminate].
    injection H as <- <-. rewrite (IH i z rest' E). apply perm_swap.
Qed.

Lemma arrange_perm (picks : list nat) (l : list A) :
  Permutation l (arrange picks l).
Proof.
  revert l. induction picks as [|i picks IH]; intros l; cbn; [reflexivity |].
  destruct (take_out i l) as [[x rest]|] eqn:E; [| apply IH].
  rewrite (take_out_perm i l x rest E). constructor. apply IH.
Qed.

Lemma ascending_sorted (l : list A) :
  ascending key l = true <-> Sorted (key_le key) l.
Proof.
  induction l as [|x l IH]; [split; [constructor | reflexivity] |].
  destruct l as [|y l].
  - split; [repeat constructor | reflexivity].
  - change (ascending key (x :: y :: l))
      with (negb (key y <? key x)%float && ascending key (y :: l)).
    rewrite andb_true_iff, negb_true_iff, IH. split.
    + intros [Hxy Hs]. constructor; [assumption | now constructor].
    + intros Hs. inversion Hs as [|? ? Hs' Hhd]; subst.
      inversion Hhd; subst. now split.
Qed.

Lemma no_nan_forallb (l : list A) :
  forallb (fun x => negb (PrimFloat.is_nan (key x))) l = true
  <-> Forall (no_nan key) l.
Proof.
  rewrite forallb_forall, Forall_forall. unfold no_nan.
  split; intros H x Hx; specialize (H x Hx);
    now destruct (PrimFloat.is_nan (key x)).
Qed.

Lemma list_sort_perm (l : list A) : Permutation l (list_sort key l).
Proof.
  unfold list_sort. destruct (_ || _); [apply sort_by_perm | apply arrange_perm].
Qed.

(** Without a NaN among the keys the result is the stable arrangement. *)
Lemma list_sort_no_nan (l : list A) :
  Forall (no_nan key) l -> list_sort key l = sort_by key l.
Proof.
  intros H. apply no_nan_forallb in H. unfold list_sort. now rewrite H.
Qed.

(** One ascending run is left as it is. *)
Lemma list_sort_run (l : list A) :
  Sorted (key_le key) l -> list_sort key l = l.
Proof.
  intros H. unfold list_sort.
  rewrite (proj2 (ascending_sorted l) H), orb_true_r. now apply sort_by_run.
Qed.

Lemma list_sort_nil : list_sort key [] = [].
Proof. reflexivity. Qed.

End ListSort.

(** ** Prefixes *)

Section Prefix.

Context {A : Type}.

Lemma firstn_incl (n : nat) (l : list A) (x : A) :
  In x (firstn n l) -> In x l.
Proof.
  intros H. rewrite <- (firstn_skipn n l). apply in_or_app. now left.
Qed.

Lemma firstn_sorted (R : A -> A -> Prop) (n : nat) (l : list A) :
  Sorted R l -> Sorted R (firstn n l).
Proof.
  revert l. induction n as [|n IH]; intros [|x l] Hs; simpl; try constructor.
  - inversion Hs; subst. now apply IH.
  - inversion Hs as [|? ? _ Hhd]; subst.
    destruct n; [constructor |]. destruct l; simpl; [constructor |].
    constructor. now inversion Hhd.
Qed.

Lemma firstn_strongly (R : A -> A -> Prop) (n : nat) (l : list A) :
  StronglySorted R l -> StronglySorted R (firstn n l).
Proof.
  revert l. induction n as [|n IH]; intros [|x l] Hs; simpl; try constructor.
  - inversion Hs; subst. now apply IH.
  - inversion Hs as [|? ? _ Hall]; subst.
    rewrite Forall_forall in *. intros y Hy. apply Hall.
    now apply (firstn_incl n l).
Qed.

Lemma py_take_firstn (n : Z) (l : list A) : exists k, py_take n l = firstn k l.
Proof. unfold py_take. destruct (n <? 0); eauto. Qed.

Lemma filter_firstn_prefix (p : A -> bool) (k : nat) (l : list A) :
  exists rest, filter p l = (filter p (firstn k l) ++ rest)%list.
Proof.
  exists (filter p (skipn k l)).
  now rewrite <- filter_app, firstn_skipn.
Qed.

End Prefix.

(** ** The similarity endpoints *)

Section Ranking.

Context {R : PyRuntime} (P : Provider).

Lemma Sorted_weaken {A} (R1 R2 : A -> A -> Prop) (l : list A) :
  (forall a b, R1 a b -> R2 a b) -> Sorted R1 l -> Sorted R2 l.
Proof.
  intros H. induction 1 as [|a l _ IH Hhd]; constructor; [assumption |].
  destruct Hhd; constructor; auto.
Qed.

Lemma StronglySorted_weaken {A} (R1 R2 : A -> A -> Prop) (l : list A) :
  (forall a b, R1 a b -> R2 a b) -> StronglySorted R1 l -> StronglySorted R2 l.
Proof.
  intros H. induction 1 as [|a l _ IH Hall]; constructor; [assumption |].
  eapply Forall_impl; [| exact Hall]. auto.
Qed.

Lemma key_le_in_order (k : Metric) (m1 m2 : Match) :
  key_le (fun m => sort_key k (m_value m)) m1 m2 -> in_order k m1 m2.
Proof.
  unfold key_le. destruct k; cbn [sort_key in_order]; try now rewrite ltb_opp.
  auto.
Qed.

Lemma equal_values_keys (k : Metric) (s : float) (a b : Match) :
  has_value s a = true -> has_value s b = true ->
  (sort_key k (m_value b) <? sort_key k (m_value a))%float = false.
Proof.
  unfold has_value. intros Ha Hb.
  destruct k; cbn [sort_key]; rewrite ?ltb_opp;
    eauto using eqb_not_ltb.
Qed.

Lemma is_nan_sort_key (k : Metric) (x : float) :
  PrimFloat.is_nan (sort_key k x) = PrimFloat.is_nan x.
Proof. destruct k; cbn [sort_key]; auto using is_nan_opp. Qed.

Lemma endpoint_unfold (k : Metric) (req : QueryRequest) :
  endpoint P k req = similar_worlds P (metric_fn k) (sort_key k) req.
Proof. now destruct k. Qed.

(** What a similarity endpoint does once the query embedding is known. *)
Lemma endpoint_run (k : Metric) (req : QueryRequest) (st st1 : Server)
    (q : option vec) :
  embed_text P (query req) st = (Ok q, st1) ->
  worlds st1 = worlds st
  /\ endpoint P k req st =
     match map_result (match_of (metric_fn k) q)
             (filter (fun w => truthy (embedding w)) (worlds st)) with
     | Raise e => (Raise e, st1)
     | Ok matches =>
         (Ok (Matches (py_take (topN req)
                         (list_sort (fun m => sort_key k (m_value m)) matches))),
          st1)
     end.
Proof.
  intros Hq. destruct (embed_text_total P (query req) st) as [r [st' [He Hw]]].
  rewrite Hq in He. injection He as -> ->. split; [assumption |].
  rewrite endpoint_unfold. unfold similar_worlds, bind. rewrite Hq, Hw.
  reflexivity.
Qed.

Lemma values_no_nan (k : Metric) (l : list Match) :
  forallb (fun m => negb (PrimFloat.is_nan (m_value m))) l = true ->
  Forall (no_nan (fun m => sort_key k (m_value m))) l.
Proof.
  intros H. apply Forall_forall. intros m Hm. unfold no_nan.
  rewrite is_nan_sort_key. rewrite forallb_forall in H.
  specialize (H m Hm). now destruct (PrimFloat.is_nan (m_value m)).
Qed.

Lemma ranking (k : Metric) (n : Z) (cands : list Match) :
  let full := list_sort (fun m => sort_key k (m_value m)) cands in
  Permutation cands full
  /\ (forallb (fun m => negb (PrimFloat.is_nan (m_value m))) cands = true ->
      StronglySorted (in_order k) full
      /\ StronglySorted (in_order k) (py_take n full)
      /\ (forall s, filter (has_value s) full = filter (has_value s) cands)
      /\ (forall s, exists rest,
            filter (has_value s) cands
            = (filter (has_value s) (py_take n full) ++ rest)%list)).
Proof.
  intros full. split; [apply list_sort_perm |]. intros Hnan.
  pose proof (values_no_nan k cands Hnan) as Hkeys.
  assert (Hfull : full = sort_by (fun m => sort_key k (m_value m)) cands)
    by now apply list_sort_no_nan.
  assert (Hkeys' : Forall (no_nan (fun m => sort_key k (m_value m))) full).
  { apply Forall_forall. intros m Hm. rewrite Forall_forall in Hkeys.
    apply Hkeys.
    exact (Permutation_in m
             (Permutation_sym
                (list_sort_perm (fun m => sort_key k (m_value m)) cands)) Hm). }
  assert (Hsorted : StronglySorted (key_le (fun m => sort_key k (m_value m))) full).
  { apply sorted_strongly; [assumption |]. rewrite Hfull. apply sort_by_sorted. }
  assert (Hstable : forall s, filter (has_value s) full = filter (has_value s) cands).
  { intros s. rewrite Hfull. apply sort_by_stable. intros a b.
    apply equal_values_keys. }
  destruct (py_take_firstn n full) as [j Hj].
  split; [eapply StronglySorted_weaken; [apply key_le_in_order | exact Hsorted] |].
  split.
  { rewrite Hj. apply firstn_strongly.
    eapply StronglySorted_weaken; [apply key_le_in_order | exact Hsorted]. }
  split; [assumption |].
  intros s. rewrite Hj, <- Hstable. apply filter_firstn_prefix.
Qed.

(** C4, as the code has it: given the query embedding and the matches
    computed from the stored worlds in their stored order, a similarity
    endpoint returns the first [topN] entries of a rearrangement of these
    matches. When no value is a NaN the rearrangement is sorted: no match is
    followed anywhere by one that should come before it (a higher value for
    the dot product and the cosine, a lower one for the distance), and the
    matches of any given value stand in their stored order; the same holds
    of the returned entries. With a NaN among the values nothing but the
    rearrangement is promised. *)
Theorem similar_endpoints_rank (k : Metric) (req : QueryRequest)
    (st st1 : Server) (q : option vec) (cands : list Match) :
  embed_text P (query req) st = (Ok q, st1) ->
  map_result (match_of (metric_fn k) q)
    (filter (fun w => truthy (embedding w)) (worlds st)) = Ok cands ->
  exists full,
    endpoint P k req st = (Ok (Matches (py_take (topN req) full)), st1)
    /\ Permutation cands full
    /\ (forallb (fun m => negb (PrimFloat.is_nan (m_value m))) cands = true ->
        StronglySorted (in_order k) full
        /\ StronglySorted (in_order k) (py_take (topN req) full)
        /\ (forall s, filter (has_value s) full = filter (has_value s) cands)
        /\ (forall s, exists rest,
              filter (has_value s) cands
              = (filter (has_value s) (py_take (topN req) full) ++ rest)%list)).
Proof.
  intros Hq Hcands. destruct (endpoint_run k req st st1 q Hq) as [_ Hrun].
  rewrite Hcands in Hrun.
  exists (list_sort (fun m => sort_key k (m_value m)) cands).
  split; [exact Hrun | apply ranking].
Qed.

End Ranking.

(** ** What the endpoints read and keep *)

Section Filtering.

Context {R : PyRuntime} (P : Provider).

Lemma map_result_in {A B} (f : A -> result B) (l : list A) (l' : list B) (y : B) :
  map_result f l = Ok l' -> In y l' -> exists x, In x l /\ f x = Ok y.
Proof.
  revert l'. induction l as [|x l IH]; intros l' Hmap Hin; simpl in Hmap.
  - injection Hmap as <-. destruct Hin.
  - destruct (f x) as [y0|] eqn:Efx; [| discriminate]. cbn [rbind] in Hmap.
    destruct (map_result f l) as [ys|]; [| discriminate]. cbn [rbind] in Hmap.
    injection Hmap as <-. destruct Hin as [<- | Hin].
    + exists x. split; [now left | assumption].
    + destruct (IH ys eq_refl Hin) as [x' [Hx' Hfx']].
      exists x'. split; [now right | assumption].
Qed.

Lemma match_of_id (metric : option vec -> option vec -> result float)
    (q : option vec) (w : World) (m : Match) :
  match_of metric q w = Ok m -> m_id m = id w.
Proof.
  unfold match_of.
  destruct (dict_item "summary" (fields w)); [| discriminate].
  destruct (dict_item "tone" (fields w)); [| discriminate].
  destruct (metric q (embedding w)); [| discriminate].
  cbn [rbind]. now intros [= <-].
Qed.

Lemma same_id_same_world (ws : list World) (w w' : World) :
  NoDup (map id ws) -> In w ws -> In w' ws -> id w = id w' -> w = w'.
Proof.
  induction ws as [|x ws IH]; intros Hnd Hw Hw' Hid; [destruct Hw |].
  simpl in Hnd. inversion Hnd as [|? ? Hnotin Hnd']; subst.
  destruct Hw as [<- | Hw], Hw' as [<- | Hw']; auto.
  - exfalso. apply Hnotin. rewrite Hid. now apply in_map.
  - exfalso. apply Hnotin. rewrite <- Hid. now apply in_map.
Qed.

Lemma returned_matches (k : Metric) (req : QueryRequest) (st st' : Server)
    (ms : list Match) (m : Match) :
  endpoint P k req st = (Ok (Matches ms), st') ->
  In m ms ->
  exists w, In w (worlds st) /\ truthy (embedding w) = true /\ m_id m = id w.
Proof.
  intros Hrun Hin.
  destruct (embed_text_total P (query req) st) as [q [st1 [Hq _]]].
  destruct (endpoint_run P k req st st1 q Hq) as [_ Heq].
  rewrite Heq in Hrun.
  destruct (map_result _ _) as [cands|] eqn:Ecands; [| discriminate].
  injection Hrun as <- _.
  destruct (py_take_firstn (topN req)
              (list_sort (fun m => sort_key k (m_value m)) cands)) as [j Hj].
  rewrite Hj in Hin. apply firstn_incl in Hin.
  apply (Permutation_in _ (Permutation_sym (list_sort_perm _ cands))) in Hin.
  destruct (map_result_in _ _ _ _ Ecands Hin) as [w [Hw Hm]].
  apply filter_In in Hw. destruct Hw as [Hw Ht].
  exists w. repeat split; try assumption.
  now apply (match_of_id (metric_fn k) q).
Qed.

(** C8: whatever [topN] is, every match that a similarity endpoint returns
    was computed from a stored world whose embedding passed the test
    [if w["embedding"]]; so, the ids of the stored worlds being distinct, no
    returned match carries the id of a world whose embedding is absent (or
    empty). *)
Theorem similar_endpoints_skip_absent (k : Metric) (req : QueryRequest)
    (st st' : Server) (ms : list Match) :
  endpoint P k req st = (Ok (Matches ms), st') ->
  (forall m, In m ms ->
     exists w, In w (worlds st) /\ truthy (embedding w) = true /\ m_id m = id w)
  /\ (NoDup (map id (worlds st)) ->
      forall w, In w (worlds st) ->
                embedding w = None \/ embedding w = Some [] ->
                ~ In (id w) (map m_id ms)).
Proof.
  intros Hrun. split; [intros m; now apply (returned_matches k req st st') |].
  intros Hnd w Hw Habsent Hin.
  apply in_map_iff in Hin. destruct Hin as [m [Hid Hm]].
  destruct (returned_matches k req st st' ms m Hrun Hm) as [w' [Hw' [Ht Hid']]].
  assert (w' = w) as -> by (apply (same_id_same_world (worlds st)); congruence).
  destruct Habsent as [Habsent | Habsent]; rewrite Habsent in Ht; discriminate.
Qed.

Lemma metric_absent_query (k : Metric) (b : option vec) :
  metric_fn k None b = Raise TypeError.
Proof. now destruct k. Qed.

Lemma match_of_absent_query (k : Metric) (w : World) :
  exists e, match_of (metric_fn k) None w = Raise e
            /\ (e = TypeError \/ e = KeyError)
            /\ (dict_keys (fields w) = known_keys -> e = TypeError).
Proof.
  unfold match_of.
  destruct (dict_item "summary" (fields w)) as [s|e] eqn:Es.
  - destruct (dict_item "tone" (fields w)) as [t|e] eqn:Et; cbn [rbind].
    + rewrite metric_absent_query. cbn [rbind]. exists TypeError. auto.
    + unfold dict_item in Et. destruct (dict_get "tone" (fields w)) eqn:Eg;
        [discriminate |]. injection Et as <-.
      exists KeyError. repeat split; auto. intros Hk. exfalso.
      assert (Hin : In "tone" (dict_keys (fields w))) by (rewrite Hk; simpl; auto).
      apply dict_get_keys in Hin. congruence.
  - cbn [rbind]. unfold dict_item in Es.
    destruct (dict_get "summary" (fields w)) eqn:Eg; [discriminate |].
    injection Es as <-.
    exists KeyError. repeat split; auto. intros Hk. exfalso.
    assert (Hin : In "summary" (dict_keys (fields w))) by (rewrite Hk; simpl; auto).
    apply dict_get_keys in Hin. congruence.
Qed.

(** C10: when the query embedding is absent and some stored world has an
    embedding that passes the test [if w["embedding"]], a similarity endpoint
    raises; the exception is the [TypeError] of the metric applied to [None]
    whenever the stored worlds have the fields that the service gives them. *)
Theorem absent_query_embedding_raises (k : Metric) (req : QueryRequest)
    (st st1 : Server) :
  embed_text P (query req) st = (Ok None, st1) ->
  (exists w, In w (worlds st) /\ truthy (embedding w) = true) ->
  exists e,
    endpoint P k req st = (Raise e, st1)
    /\ (e = TypeError \/ e = KeyError)
    /\ (Forall (fun w => dict_keys (fields w) = known_keys) (worlds st) ->
        e = TypeError).
Proof.
  intros Hq [w [Hw Ht]].
  destruct (endpoint_run P k req st st1 None Hq) as [_ Heq]. rewrite Heq.
  assert (Hin : In w (filter (fun w => truthy (embedding w)) (worlds st)))
    by (apply filter_In; auto).
  destruct (filter (fun w => truthy (embedding w)) (worlds st)) as [|w0 rest] eqn:Ef;
    [destruct Hin |].
  assert (Hw0 : In w0 (worlds st)).
  { assert (H0 : In w0 (filter (fun w => truthy (embedding w)) (worlds st)))
      by (rewrite Ef; now left).
    now apply filter_In in H0. }
  destruct (match_of_absent_query k w0) as [e [He [Hcases Hwf]]].
  exists e. cbn [map_result]. rewrite He. cbn [rbind].
  repeat split; try assumption.
  intros Hall. apply Hwf. rewrite Forall_forall in Hall. now apply Hall.
Qed.

(** With a query embedding at hand the dot-product endpoint always answers,
    the stored worlds having the fields that the service gives them. *)
Lemma similar_dot_returns (req : QueryRequest) (st st1 : Server) (qv : vec) :
  embed_text P (query req) st = (Ok (Some qv), st1) ->
  Forall (fun w => dict_keys (fields w) = known_keys) (worlds st) ->
  exists cands,
    map_result (match_of dot_product (Some qv))
      (filter (fun w => truthy (embedding w)) (worlds st)) = Ok cands.
Proof.
  intros _ Hwf. induction Hwf as [|w ws Hw _ IH]; [now exists [] |].
  cbn [filter]. destruct (truthy (embedding w)) eqn:Et; [| exact IH].
  destruct IH as [cands IH]. cbn [map_result]. rewrite IH. unfold match_of.
  destruct (dict_item_keys "summary" (fields w)) as [s ->];
    [rewrite Hw; simpl; auto |].
  destruct (dict_item_keys "tone" (fields w)) as [t ->];
    [rewrite Hw; simpl; auto |].
  destruct (embedding w) as [e|]; [| discriminate].
  cbn [rbind dot_product py_zip]. eauto.
Qed.

Lemma filter_none {A} (f : A -> bool) (l : list A) :
  Forall (fun x => f x = false) l -> filter f l = [].
Proof.
  induction 1 as [|x l Hx _ IH]; [reflexivity |]. simpl. now rewrite Hx.
Qed.

(** With an absent query embedding and no stored embedding that passes the
    test, nothing is computed and the answer is empty. *)
Lemma nothing_to_compare (k : Metric) (req : QueryRequest) (st st1 : Server)
    (q : option vec) :
  embed_text P (query req) st = (Ok q, st1) ->
  Forall (fun w => truthy (embedding w) = false) (worlds st) ->
  endpoint P k req st = (Ok (Matches []), st1).
Proof.
  intros Hq Hall.
  destruct (endpoint_run P k req st st1 q Hq) as [_ Heq]. rewrite Heq.
  assert (Hnil : filter (fun w => truthy (embedding w)) (worlds st) = [])
    by now apply filter_none.
  rewrite Hnil. cbn [map_result]. rewrite list_sort_nil.
  destruct (py_take_firstn (topN req) (@nil Match)) as [j ->].
  now rewrite firstn_nil.
Qed.

End Filtering.

(** ** The stored worlds *)

Section Store.

Context {R : PyRuntime} (P : Provider).

Lemma generate_world_cases (biome culture tone : json) (st : Server) :
  (exists e, generate_world P biome culture tone st = (Raise e, st))
  \/ exists res st',
       generate_world P biome culture tone st = (Ok res, st')
       /\ worlds st' = worlds st
       /\ dict_keys (gr_world res) = known_keys.
Proof.
  destruct (build_prompt biome culture tone) as [prompt|e] eqn:Ep.
  - right. destruct (generate_world_returns P _ _ _ prompt st Ep) as [e [st' [H Hw]]].
    eexists _, st'. split; [exact H |]. split; [assumption |].
    cbn [gr_world]. apply locals_after_keys.
  - left. exists e. now apply generate_world_raises.
Qed.

Lemma generate_and_store (biome culture tone : json) (st : Server) :
  (exists e, (res <~ generate_world P biome culture tone ;; store_world res) st
             = (Raise e, st))
  \/ exists w st',
       (res <~ generate_world P biome culture tone ;; store_world res) st
       = (Ok w, st')
       /\ worlds st' = (worlds st ++ [w])%list
       /\ id w = Z.of_nat (List.length (worlds st)) + 1
       /\ dict_keys (fields w) = known_keys.
Proof.
  unfold bind.
  destruct (generate_world_cases biome culture tone st)
    as [[e He] | [res [st' [He [Hw Hk]]]]]; rewrite He.
  - left. now exists e.
  - right. unfold store_world, append_world. eexists _, _.
    split; [reflexivity |]. cbn. rewrite Hw. auto.
Qed.

Lemma generate_world_route_appends (req : WorldRequest) (st : Server) :
  exists w st',
    generate_world_route P req st = (Ok (WorldGenerated "World generated" w), st')
    /\ worlds st' = (worlds st ++ [w])%list
    /\ id w = Z.of_nat (List.length (worlds st)) + 1
    /\ dict_keys (fields w) = known_keys.
Proof.
  destruct (build_prompt_str (JStr (req_biome req)) (JStr (req_culture req))
              (req_tone req)) as [prompt Hp].
  destruct (generate_world_returns P _ _ _ prompt st Hp) as [e [st' [H Hw]]].
  unfold generate_world_route, bind. rewrite H.
  unfold store_world, append_world, ret. eexists _, _.
  split; [reflexivity |]. cbn. rewrite Hw. repeat split.
  apply locals_after_keys.
Qed.

Lemma function_call_step (req : FunctionCallRequest) (st : Server) :
  grows_by_at_most_one st (snd (function_call P req st)).
Proof.
  unfold function_call, try_except.
  destruct (generate_with_tools P (calls st) (message req)) as [[fn|]|msg];
    try (left; reflexivity).
  destruct (negb (fc_name fn =? "generateWorld")%string); [left; reflexivity |].
  set (st1 := tick _ st).
  assert (Hst1 : worlds st1 = worlds st) by reflexivity.
  unfold bind at 1, lift.
  destruct (dict_item "biome" (fc_args fn)) as [b|]; [| left; reflexivity].
  unfold bind at 1.
  destruct (dict_item "culture" (fc_args fn)) as [c|]; [| left; reflexivity].
  unfold bind at 1.
  destruct (dict_item "tone" (fc_args fn)) as [t|]; [| left; reflexivity].
  destruct (generate_and_store b c t st1) as [[e He] | [w [st' [He [Hw [Hid Hk]]]]]].
  - left. unfold bind in *.
    destruct (generate_world P b c t st1) as [[res|e'] st2] eqn:Eg.
    + unfold store_world in He. discriminate.
    + injection He as -> ->. cbn. exact Hst1.
  - right. exists w. unfold bind in *.
    destruct (generate_world P b c t st1) as [[res|e'] st2] eqn:Eg;
      [| discriminate].
    unfold store_world in *. injection He as <- <-. cbn.
    rewrite <- Hst1. auto.
Qed.

Lemma handle_step (r : Request) (st : Server) :
  grows_by_at_most_one st (snd (handle P r st)).
Proof.
  destruct r as [req| |req|req|req|req]; cbn [handle].
  - destruct (generate_world_route_appends req st) as [w [st' [H [Hw [Hid Hk]]]]].
    rewrite H. right. now exists w.
  - left. reflexivity.
  - left. destruct (embed_text_total P (query req) st) as [q [st1 [Hq _]]].
    destruct (endpoint_run P Dot req st st1 q Hq) as [Hw Heq].
    cbn [endpoint] in Heq. rewrite Heq.
    now destruct (map_result _ _).
  - left. destruct (embed_text_total P (query req) st) as [q [st1 [Hq _]]].
    destruct (endpoint_run P Cosine req st st1 q Hq) as [Hw Heq].
    cbn [endpoint] in Heq. rewrite Heq.
    now destruct (map_result _ _).
  - left. destruct (embed_text_total P (query req) st) as [q [st1 [Hq _]]].
    destruct (endpoint_run P L2 req st st1 q Hq) as [Hw Heq].
    cbn [endpoint] in Heq. rewrite Heq.
    now destruct (map_result _ _).
  - apply function_call_step.
Qed.

Lemma stored_ok_step (st st' : Server) :
  grows_by_at_most_one st st' -> stored_ok (worlds st) -> stored_ok (worlds st').
Proof.
  intros [-> | [w [-> [Hid Hk]]]] [Hd Hf]; [now split |]. split.
  - unfold dense in *. rewrite map_app, length_app, Hd. cbn [List.length map].
    rewrite Nat.add_1_r, seq_S, map_app. cbn [map]. do 2 f_equal. lia.
  - apply Forall_app. auto.
Qed.

Lemma run_app (rs rs' : list Request) (st : Server) :
  run P (rs ++ rs') st = run P rs' (run P rs st).
Proof. unfold run. apply fold_left_app. Qed.

Lemma run_stored_ok (rs : list Request) (st : Server) :
  stored_ok (worlds st) -> stored_ok (worlds (run P rs st)).
Proof.
  revert st. induction rs as [|r rs IH]; intros st H; [assumption |].
  cbn [run fold_left]. apply IH. eapply stored_ok_step; [apply handle_step | assumption].
Qed.

Lemma run_extends (rs : list Request) (st : Server) :
  exists more, worlds (run P rs st) = (worlds st ++ more)%list.
Proof.
  revert st. induction rs as [|r rs IH]; intros st.
  - exists []. now rewrite app_nil_r.
  - cbn [run fold_left]. destruct (IH (snd (handle P r st))) as [more Hmore].
    fold (run P rs (snd (handle P r st))) in *. rewrite Hmore.
    destruct (handle_step r st) as [-> | [w [-> _]]]; [eauto |].
    exists (w :: more). now rewrite <- app_assoc.
Qed.

Lemma dense_nth (ws : list World) (start i : nat) (w : World) :
  map id ws = map Z.of_nat (seq start (List.length ws)) ->
  nth_error ws i = Some w -> id w = Z.of_nat (start + i).
Proof.
  revert start i. induction ws as [|x ws IH]; intros start [|i] Hd Hn;
    try discriminate; cbn in Hd, Hn; injection Hd as Hx Hd.
  - injection Hn as <-. rewrite Hx. f_equal. lia.
  - rewrite (IH (S start) i Hd Hn). f_equal. lia.
Qed.

Lemma dense_nodup (ws : list World) : dense ws -> NoDup (map id ws).
Proof.
  unfold dense. intros ->. generalize (seq_NoDup (List.length ws) 1).
  generalize (seq 1 (List.length ws)). intros l Hl.
  induction Hl as [|x l Hx _ IH]; cbn; constructor; [| assumption].
  intros Hin. apply in_map_iff in Hin. destruct Hin as [y [Hy Hin]].
  apply Nat2Z.inj in Hy. now subst.
Qed.

(** C7: after any sequence of requests, each run to completion from the
    empty store, the ids of the stored worlds are 1, 2, ... in stored order:
    the world at index [i] has id [i + 1], ids grow strictly along the list
    and no id occurs twice; later requests only append to the stored worlds;
    and a [/generate-world] request always completes and appends one world
    whose id is the new length, while any other request appends at most one
    such world. *)
Theorem stored_ids_are_dense (rs : list Request) :
  let st := run P rs initial in
  map id (worlds st) = map Z.of_nat (seq 1 (List.length (worlds st)))
  /\ NoDup (map id (worlds st))
  /\ (forall i w, nth_error (worlds st) i = Some w -> id w = Z.of_nat i + 1)
  /\ (forall i j wi wj,
        nth_error (worlds st) i = Some wi -> nth_error (worlds st) j = Some wj ->
        (i < j)%nat -> id wi < id wj)
  /\ (forall rs', exists more,
        worlds (run P (rs ++ rs') initial) = (worlds st ++ more)%list)
  /\ (forall req, exists w st',
        generate_world_route P req st
        = (Ok (WorldGenerated "World generated" w), st')
        /\ worlds st' = (worlds st ++ [w])%list
        /\ id w = Z.of_nat (List.length (worlds st)) + 1)
  /\ (forall r, grows_by_at_most_one st (snd (handle P r st))).
Proof.
  intros st.
  assert (Hok : stored_ok (worlds st)).
  { apply run_stored_ok. split; [reflexivity | constructor]. }
  destruct Hok as [Hd _].
  split; [exact Hd |]. split; [now apply dense_nodup |]. split.
  { intros i w Hn. rewrite (dense_nth _ 1 i w Hd Hn). lia. }
  split.
  { intros i j wi wj Hi Hj Hlt.
    rewrite (dense_nth _ 1 i wi Hd Hi), (dense_nth _ 1 j wj Hd Hj). lia. }
  split.
  { intros rs'. rewrite run_app. apply run_extends. }
  split.
  { intros req.
    destruct (generate_world_route_appends req st) as [w [st' [H [Hw [Hid _]]]]].
    eauto. }
  intros r. apply handle_step.
Qed.

Lemma reachable_fields (rs : list Request) :
  Forall (fun w => dict_keys (fields w) = known_keys)
    (worlds (run P rs initial)).
Proof.
  apply (run_stored_ok rs initial). split; [reflexivity | constructor].
Qed.

End Store.

(** ** The sample runtime and the sample runs *)

Section Instances.

Import Decoder Samples.

Local Open Scope float_scope.

(** The sample decoder yields an object, or nothing, on a text that begins
    with a brace. *)
Lemma loads_object : loads_object_on_brace runtime.
Proof.
  intros s v. cbn [json_loads runtime]. unfold loads.
  change (skip_ws (String "{" s)) with (String "{"%char s).
  cbn [parse_value].
  destruct (starts_with "}" (skip_ws s)).
  - destruct (skip_ws (tail (skip_ws s))); [| discriminate].
    intros [= <-]. eauto.
  - destruct (parse_members _ _ _) as [[d r]|]; [| discriminate].
    destruct (skip_ws r); [| discriminate].
    intros [= <-]. eauto.
Qed.

(** The example of the specification. *)
Example reconcile_example :
  reconcile ("Some reasoning. {" ++ quoted "summary" ++ ":" ++ quoted "X" ++ "}")
            [("summary", JStr "A"); ("myth", JStr "B")]
  = ("Some reasoning.", [("summary", JStr "X"); ("myth", JStr "B")], None)
  /\ reconcile "no braces here" defaults = ("", defaults, None)
  /\ reconcile "{broken json" defaults = ("", defaults, None).
Proof. repeat split; reflexivity. Qed.

(** The sample answer holds the keys [summary] and [id]: [summary] is
    overwritten, [myth] keeps its default and [id] is not taken over. *)
Lemma reconcile_overwrites_known_keys_witness :
  exists record,
    reconcile answer defaults = ("Some reasoning.", record, None)
    /\ dict_keys record = ["summary"; "myth"]
    /\ dict_get "summary" record = Some (JStr "X")
    /\ dict_get "myth" record = Some (JStr "B")
    /\ dict_get "id" record = None.
Proof.
  destruct (reconcile_overwrites_known_keys helpful loads_object answer
              (JObj [("summary", JStr "X"); ("id", JNum "7")]))
    as [obj [Hobj [Hrec _]]].
  - vm_compute. split; [discriminate | reflexivity].
  - reflexivity.
  - injection Hobj as <-.
    destruct (Hrec defaults) as [record [Hrun [Hkeys Hget]]].
    exists record. split; [exact Hrun |]. split; [exact Hkeys |].
    rewrite !Hget. repeat split.
Defined.

(** An answer without braces. *)
Lemma malformed_response_falls_back_witness :
  (forall d, reconcile "no braces here" d = ("", d, None))
  /\ exists e st',
       generate_world rambling (JStr "tundra") (JStr "nomadic") (JStr "hopeful")
         initial
       = (Ok {| gr_reasoning := "";
                gr_world := fallback_world (JStr "tundra") (JStr "nomadic")
                              (JStr "hopeful");
                gr_embedding := e |}, st').
Proof.
  destruct (malformed_response_falls_back rambling "no braces here")
    as [Hrec Hgen].
  - left. reflexivity.
  - split; [exact Hrec |].
    eapply (Hgen (JStr "tundra") (JStr "nomadic") "hopeful" _ initial);
      reflexivity.
Defined.

(** The generative model is unreachable. *)
Lemma generation_failure_falls_back_witness :
  exists e st',
    generate_world unreachable (JStr "tundra") (JStr "nomadic") (JStr "hopeful")
      initial
    = (Ok {| gr_reasoning := "";
             gr_world :=
               [ ("summary",
                  JStr "A mystical desert world shaped by nomadic wisdom.");
                 ("biome", JStr "tundra");
                 ("culture", JStr "nomadic");
                 ("tone", JStr "hopeful");
                 ("myth",
                  JStr "The Whispering Wind guides lost souls to hidden sanctuaries.") ];
             gr_embedding := e |}, st')
    /\ worlds st' = worlds initial.
Proof.
  eapply (generation_failure_falls_back unreachable (JStr "tundra")
            (JStr "nomadic") "hopeful" _ "connection refused" initial);
    reflexivity.
Defined.

(** The embedding provider is rate limited twice: the attempts are the two
    failures and the answer of the third call. *)
Lemma embed_text_retry_policy_witness :
  exists attempts : list EmbedReply,
    attempts = [ EmbedFailure "429 quota exceeded";
                 EmbedFailure "429 quota exceeded"; Embedding [3; 4] ]
    /\ Forall rate_limited (removelast attempts)
    /\ embed_text throttled "ice" initial =
       (Ok (embedding_of (last attempts (Embedding []))),
        {| worlds := worlds initial;
           calls := calls initial + List.length attempts;
           log := log initial ++ schedule "ice" 1 attempts
                              ++ report (last attempts (Embedding [])) |}).
Proof.
  destruct (embed_text_retry_policy throttled "ice" initial)
    as [attempts (Hlen & Hatt & Hretry & Hlast & Hrun)].
  assert (H429 : occurs "429" "429 quota exceeded")
    by (exists EmptyString, " quota exceeded"; reflexivity).
  exists attempts. split; [| now split].
  destruct attempts as [|a [|b [|c [|d rest]]]]; cbn in Hlen; try lia;
    cbn in Hatt; injection Hatt as -> ; subst; try reflexivity;
    specialize (Hlast H429); discriminate Hlast.
Defined.

(** C9, as stated, fails: a failure that is no rate-limit error, the
    internal error 500, is retried twice, with the sleeps of 1 and 2
    seconds, because the digits 429 occur in its text. *)
Lemma failure_with_429_in_text_is_retried :
  embed_text broken "ice" initial
  = (Ok None,
     {| worlds := [];
        calls := 3;
        log := [ EvEmbed "ice" (EmbedFailure "500 Internal error (trace 8f42991c)");
                 EvSleep 1;
                 EvEmbed "ice" (EmbedFailure "500 Internal error (trace 8f42991c)");
                 EvSleep 2;
                 EvEmbed "ice" (EmbedFailure "500 Internal error (trace 8f42991c)");
                 EvPrint "Embedding error:" ] |}).
Proof. reflexivity. Qed.

(** The throttled provider is asked three times, with sleeps of 1 and 2
    seconds, and the third answer is returned. *)
Example embed_text_throttled :
  embed_text throttled "ice" initial
  = (Ok (Some [3; 4]),
     {| worlds := [];
        calls := 3;
        log := [ EvEmbed "ice" (EmbedFailure "429 quota exceeded"); EvSleep 1;
                 EvEmbed "ice" (EmbedFailure "429 quota exceeded"); EvSleep 2;
                 EvEmbed "ice" (Embedding [3; 4]) ] |}).
Proof. reflexivity. Qed.

(** A zero vector against the vector (3, 4), of norm 5. *)
Lemma cosine_of_zero_vector_raises_witness :
  cosine_similarity (Some [0; -0]) (Some [3; 4]) = Raise ZeroDivisionError.
Proof.
  apply cosine_of_zero_vector_raises; [reflexivity | left; split; reflexivity].
Defined.

(** The two nearest of the three stored worlds that have an embedding: no
    distance is a NaN, the matches are sorted, and the first and the fourth
    world, equally near, keep their stored order. *)
Lemma similar_endpoints_rank_witness :
  exists full,
    endpoint helpful L2 top2 library
    = (Ok (Matches (py_take 2 full)), snd (embed_text helpful "ice" library))
    /\ Permutation
         (library_matches [(1%Z, 2); (3%Z, 0x1.6a09e667f3bcdp+1); (4%Z, 2)]) full
    /\ StronglySorted (in_order L2) full
    /\ filter (has_value 2) full = library_matches [(1%Z, 2); (4%Z, 2)]
    /\ py_take 2 full = library_matches [(1%Z, 2); (4%Z, 2)].
Proof.
  destruct (similar_endpoints_rank helpful L2 top2 library
              (snd (embed_text helpful "ice" library)) (Some [1; 2])
              (library_matches [(1%Z, 2); (3%Z, 0x1.6a09e667f3bcdp+1); (4%Z, 2)]))
    as [full (Hrun & Hperm & Hsorted)].
  - reflexivity.
  - reflexivity.
  - destruct (Hsorted eq_refl) as (Hs & _ & Hties & _).
    exists full. split; [exact Hrun |]. split; [exact Hperm |].
    split; [exact Hs |]. split; [now rewrite Hties |].
    assert (H : endpoint helpful L2 top2 library
                = (Ok (Matches (library_matches [(1%Z, 2); (4%Z, 2)])),
                   snd (embed_text helpful "ice" library))) by reflexivity.
    rewrite Hrun in H. now injection H.
Defined.

(** C4, as stated, fails: with the query [[2.0**600, 2.0**600]] the stored
    embedding [[2.0**600, -2.0**600]] has the dot product [inf + -inf], a
    NaN, which compares false with everything. No sort key is then below
    the key before it: the three matches are one ascending run, which
    [list.sort] leaves as it is, and the endpoint returns the values 1.0,
    NaN, 2.0 in this order, the lower value 1.0 before the higher value
    2.0. *)
Lemma nan_value_breaks_descending_order :
  exists m1 m2 m3 st',
    similar_dot huge {| query := "ice"; topN := 3 |} extremes
    = (Ok (Matches [m1; m2; m3]), st')
    /\ map m_id [m1; m2; m3] = [1; 2; 3]%Z
    /\ m_value m1 = 1
    /\ PrimFloat.is_nan (m_value m2) = true
    /\ m_value m3 = 2
    /\ (m_value m1 <? m_value m3) = true
    /\ ~ StronglySorted (in_order Dot) [m1; m2; m3].
Proof.
  eexists _, _, _, _. split; [reflexivity |].
  repeat split; try reflexivity.
  intros H. inversion H as [|? ? _ Hall]; subst.
  inversion Hall as [|? ? _ Hall']; subst.
  inversion Hall' as [|? ? H13 _]; subst.
  cbn in H13. discriminate H13.
Qed.

(** All matches but the last one: the second stored world, which has no
    embedding, is not among them. *)
Lemma similar_endpoints_skip_absent_witness :
  exists ms st',
    endpoint helpful Cosine {| query := "ice"; topN := -1 |} library
    = (Ok (Matches ms), st')
    /\ map m_id ms = [3; 1]%Z
    /\ (forall m, In m ms ->
          exists w, In w (worlds library) /\ truthy (embedding w) = true
                    /\ m_id m = id w)
    /\ ~ In 2%Z (map m_id ms).
Proof.
  assert (H : exists ms st',
            endpoint helpful Cosine {| query := "ice"; topN := -1 |} library
            = (Ok (Matches ms), st')
            /\ map m_id ms = [3; 1]%Z).
  { eexists _, _. split; reflexivity. }
  destruct H as [ms [st' [Hrun Hids]]]. exists ms, st'.
  destruct (similar_endpoints_skip_absent helpful Cosine _ library st' ms Hrun)
    as [Hin Hout].
  repeat split; try assumption.
  apply (Hout ltac:(repeat constructor; simpl; intuition discriminate)
              (sample_world 2 None)); simpl; auto.
Defined.

(** The embedding provider is unreachable and the store holds embeddings. *)
Lemma absent_query_embedding_raises_witness :
  endpoint unreachable Dot top2 library
  = (Raise TypeError, snd (embed_text unreachable "ice" library)).
Proof.
  destruct (absent_query_embedding_raises unreachable Dot top2 library
              (snd (embed_text unreachable "ice" library)))
    as [e (Hrun & _ & Hwf)].
  - reflexivity.
  - exists (sample_world 1 (Some [1; 0])). split; [now left | reflexivity].
  - rewrite Hrun. f_equal. f_equal. apply Hwf. repeat constructor.
Defined.

(** Five requests, three of which generate a world. *)
Lemma stored_ids_are_dense_witness :
  map id (worlds (run helpful
                    [ PostGenerateWorld tundra; PostSimilarDot top2;
                      PostFunctionCall {| message := "a reef world" |};
                      GetWorlds; PostGenerateWorld tundra ] initial))
  = [1; 2; 3]%Z
  /\ forall i w,
       nth_error (worlds (run helpful
                            [ PostGenerateWorld tundra; PostSimilarDot top2;
                              PostFunctionCall {| message := "a reef world" |};
                              GetWorlds; PostGenerateWorld tundra ] initial)) i
       = Some w ->
       id w = (Z.of_nat i + 1)%Z.
Proof.
  destruct (stored_ids_are_dense helpful
              [ PostGenerateWorld tundra; PostSimilarDot top2;
                PostFunctionCall {| message := "a reef world" |};
                GetWorlds; PostGenerateWorld tundra ])
    as (Hids & _ & Hnth & _).
  split; [| exact Hnth]. rewrite Hids. reflexivity.
Defined.

End Instances.

(** * Further properties of the code *)

(** ** Arithmetic of binary64 *)

Section FloatArith.

Lemma round_aux_sign (s : bool) m e l :
  binary_round_aux prec emax s m e l = S754_nan
  \/ binary_round_aux prec emax s m e l = S754_zero s
  \/ binary_round_aux prec emax s m e l = S754_infinity s
  \/ exists m' e', binary_round_aux prec emax s m e l = S754_finite s m' e'.
Proof.
  unfold binary_round_aux.
  destruct (shr_fexp prec emax m e l) as [mrs e1].
  destruct (shr_fexp prec emax _ e1 loc_Exact) as [mrs2 e2].
  destruct (shr_m mrs2); eauto.
  destruct (e2 <=? emax - prec); eauto 6.
Qed.

Lemma round_aux_abs (s s' : bool) m e l :
  SFabs (binary_round_aux prec emax s m e l)
  = SFabs (binary_round_aux prec emax s' m e l).
Proof.
  unfold binary_round_aux.
  destruct (shr_fexp prec emax m e l) as [mrs e1].
  destruct (shr_fexp prec emax _ e1 loc_Exact) as [mrs2 e2].
  destruct (shr_m mrs2); try reflexivity.
  destruct (e2 <=? emax - prec); reflexivity.
Qed.

Lemma SFmul_comm x y : SF64mul x y = SF64mul y x.
Proof.
  unfold SF64mul, SFmul.
  destruct x as [sx|sx| |sx mx ex], y as [sy|sy| |sy my ey];
    try reflexivity; try (now rewrite xorb_comm).
  now rewrite xorb_comm, Pos.mul_comm, Z.add_comm.
Qed.

Lemma round_aux_nonneg m e l : sf_nonneg (binary_round_aux prec emax false m e l).
Proof.
  unfold sf_nonneg.
  destruct (round_aux_sign false m e l) as [-> | [-> | [-> | [m' [e' ->]]]]];
    reflexivity.
Qed.

Lemma SFadd_nonneg x y : sf_nonneg x -> sf_nonneg y -> sf_nonneg (SF64add x y).
Proof.
  unfold sf_nonneg.
  destruct x as [[]|[]| |[] mx ex], y as [[]|[]| |[] my ey];
    intros Hx Hy; try reflexivity; try discriminate.
  unfold SF64add, SFadd, binary_normalize. cbn [cond_Zopp Z.add].
  unfold binary_round. destruct (shl_align _ _ _) as [mz ez].
  apply round_aux_nonneg.
Qed.

Lemma SFmul_abs_nonneg x y : sf_nonneg (SF64mul (SFabs x) (SFabs y)).
Proof.
  unfold sf_nonneg.
  destruct x as [sx|sx| |sx mx ex], y as [sy|sy| |sy my ey]; try reflexivity.
  apply round_aux_nonneg.
Qed.

Lemma SFmul_self_nonneg x : sf_nonneg (SF64mul x x).
Proof.
  unfold sf_nonneg.
  destruct x as [[]|[]| |[] mx ex]; try reflexivity; apply round_aux_nonneg.
Qed.

Lemma SFsqrt_nonneg x : sf_nonneg (SF64sqrt x).
Proof.
  unfold sf_nonneg, SF64sqrt, SFsqrt.
  destruct x as [[]|[]| |[] mx ex]; try reflexivity.
  destruct (SFsqrt_core_binary prec emax (Z.pos mx) ex) as [[mz ez] lz].
  apply round_aux_nonneg.
Qed.

Lemma SFsub_abs_sym x y : SFabs (SF64sub x y) = SFabs (SF64sub y x).
Proof.
  destruct x as [[]|[]| |sx mx ex], y as [[]|[]| |sy my ey]; try reflexivity.
  unfold SF64sub, SFsub.
  replace (IntDef.Z.min ey ex) with (IntDef.Z.min ex ey) by apply Z.min_comm.
  set (ez := IntDef.Z.min ex ey).
  set (A := cond_Zopp sx _). set (B := cond_Zopp sy _). clearbody A B ez.
  replace (B - A) with (- (A - B)) by lia.
  destruct (A - B) as [|p|p]; try reflexivity;
    cbn [Z.opp binary_normalize]; unfold binary_round;
    destruct (shl_align _ _ _) as [mz ez']; apply round_aux_abs.
Qed.

Lemma SFsub_diag x :
  (exists s, x = S754_zero s) \/ (exists s m e, x = S754_finite s m e) ->
  SF64sub x x = S754_zero false.
Proof.
  intros [[s ->] | [s [m [e ->]]]]; [now destruct s |].
  unfold SF64sub, SFsub. now rewrite Z.sub_diag.
Qed.

Local Open Scope float_scope.

Lemma float_mul_comm (x y : float) : x * y = y * x.
Proof. apply Prim2SF_inj. rewrite !mul_spec. apply SFmul_comm. Qed.

Lemma nonneg_spec (x : float) : nonneg x <-> sf_nonneg (Prim2SF x).
Proof. unfold nonneg, sf_nonneg. now rewrite ltb_spec. Qed.

Lemma add_nonneg (x y : float) : nonneg x -> nonneg y -> nonneg (x + y).
Proof. rewrite !nonneg_spec, add_spec. apply SFadd_nonneg. Qed.

Lemma mul_self_nonneg (x : float) : nonneg (x * x).
Proof. rewrite nonneg_spec, mul_spec. apply SFmul_self_nonneg. Qed.

Lemma mul_abs_nonneg (x : float) : nonneg (abs x * abs x).
Proof. rewrite nonneg_spec, mul_spec, abs_spec. apply SFmul_abs_nonneg. Qed.

Lemma sqrt_nonneg (x : float) : nonneg (sqrt x).
Proof. rewrite nonneg_spec, sqrt_spec. apply SFsqrt_nonneg. Qed.

Lemma abs_nonneg (x : float) : nonneg (abs x).
Proof.
  rewrite nonneg_spec, abs_spec. unfold sf_nonneg.
  now destruct (Prim2SF x) as [s|s| |s m e].
Qed.

Lemma nan_unique (x : float) : PrimFloat.is_nan x = true -> x = nan.
Proof.
  unfold PrimFloat.is_nan. rewrite eqb_spec. intros H.
  rewrite <- (SF2Prim_Prim2SF x).
  destruct (Prim2SF x) as [s|s| |s m e] eqn:E; try reflexivity; exfalso.
  - discriminate.
  - destruct s; discriminate.
  - unfold SFeqb in H. rewrite SFcompare_cmp in H. cbn in H.
    destruct s; destruct (cmp_em_spec e m e m); try discriminate; lia.
Qed.

Lemma nan_nonneg (x : float) : PrimFloat.is_nan x = true -> nonneg x.
Proof. intros H. now rewrite (nan_unique x H). Qed.

Lemma is_nan_abs (x : float) : PrimFloat.is_nan (abs x) = PrimFloat.is_nan x.
Proof.
  unfold PrimFloat.is_nan. rewrite !eqb_spec, abs_spec.
  unfold SFeqb. rewrite !SFcompare_cmp.
  destruct (Prim2SF x) as [[]|[]| |[] m e]; try reflexivity; cbn;
    destruct (cmp_em_spec e m e m); try reflexivity; try lia.
Qed.

Lemma is_zero_abs (x : float) : PrimFloat.is_zero (abs x) = PrimFloat.is_zero x.
Proof.
  unfold PrimFloat.is_zero. rewrite !eqb_spec, abs_spec.
  change (Prim2SF zero) with (S754_zero false).
  now destruct (Prim2SF x) as [[]|[]| |[] m e].
Qed.

Lemma sub_abs_sym (x y : float) : abs (x - y) = abs (y - x).
Proof. apply Prim2SF_inj. rewrite !abs_spec, !sub_spec. apply SFsub_abs_sym. Qed.

Lemma float_sub_diag (x : float) : PrimFloat.is_finite x = true -> x - x = 0.
Proof.
  intros Hx. apply Prim2SF_inj. rewrite sub_spec.
  change (Prim2SF 0) with (S754_zero false).
  now apply SFsub_diag, is_finite_spec.
Qed.

End FloatArith.

(** ** The similarity functions, continued *)

Section MetricLaws.

Local Open Scope float_scope.

Lemma products_comm (a b : vec) :
  map (fun p => fst p * snd p) (combine a b)
  = map (fun p => fst p * snd p) (combine b a).
Proof.
  revert b. induction a as [|x a IH]; intros [|y b]; try reflexivity.
  cbn [combine map fst snd]. now rewrite IH, float_mul_comm.
Qed.

(** X1: [dot_product] does not depend on the order of its arguments,
    whatever they are: the same number is returned, or [TypeError] is raised
    both ways. *)
Theorem dot_product_symmetric (a b : option vec) :
  dot_product a b = dot_product b a.
Proof.
  destruct a as [a|], b as [b|]; try reflexivity.
  unfold dot_product, py_zip. cbn [rbind]. now rewrite products_comm.
Qed.

Lemma py_sum_nonneg (l : list float) :
  Forall nonneg l -> nonneg (py_sum l).
Proof.
  unfold py_sum. assert (H0 : nonneg 0) by reflexivity. revert H0.
  generalize 0. induction l as [|x l IH]; intros acc Hacc Hl; [assumption |].
  inversion Hl; subst. cbn [fold_left]. apply IH; [| assumption].
  now apply add_nonneg.
Qed.

Lemma squares_nonneg (a : vec) :
  Forall nonneg (map (fun p => fst p * snd p) (combine a a)).
Proof.
  induction a as [|x a IH]; constructor; [apply mul_self_nonneg | assumption].
Qed.

Lemma math_sqrt_nonneg (x : float) : nonneg x -> math_sqrt x = Ok (sqrt x).
Proof. unfold math_sqrt, nonneg. now intros ->. Qed.

(** The norm of a vector is always computed: the sum of the squares is never
    below zero. *)
Lemma norm_returns (a : vec) :
  norm a = Ok (sqrt (py_sum (map (fun p => fst p * snd p) (combine a a)))).
Proof.
  unfold norm, dot_product, py_zip. cbn [rbind].
  apply math_sqrt_nonneg, py_sum_nonneg, squares_nonneg.
Qed.

(** X2: on two vectors [cosine_similarity] never fails in [math.sqrt]: both
    norms are computed, and the call raises [ZeroDivisionError] when the
    product of the norms is a zero and returns the quotient otherwise. *)
Theorem cosine_similarity_outcomes (a b : vec) :
  exists d na nb,
    dot_product (Some a) (Some b) = Ok d
    /\ norm a = Ok na /\ norm b = Ok nb
    /\ cosine_similarity (Some a) (Some b)
       = if PrimFloat.is_zero (na * nb) then Raise ZeroDivisionError
         else Ok (d / (na * nb)).
Proof.
  destruct (dot_product_returns a b) as [d Hd].
  exists d. eexists _, _. split; [exact Hd |].
  split; [apply norm_returns |]. split; [apply norm_returns |].
  rewrite cosine_by_norms, Hd, !norm_returns. reflexivity.
Qed.

(** X3: [cosine_similarity] does not depend on the order of its arguments,
    whatever they are. *)
Theorem cosine_similarity_symmetric (a b : option vec) :
  cosine_similarity a b = cosine_similarity b a.
Proof.
  destruct a as [a|], b as [b|]; try reflexivity.
  rewrite !cosine_by_norms, !norm_returns.
  unfold dot_product, py_zip. cbn [rbind].
  now rewrite (products_comm a b), float_mul_comm.
Qed.

Lemma float_pow2_abs (x y : float) :
  abs x = abs y -> float_pow2 x = float_pow2 y.
Proof.
  intros H. unfold float_pow2, PrimFloat.is_infinity.
  rewrite <- (is_nan_abs x), <- (is_nan_abs y), <- (is_zero_abs x),
    <- (is_zero_abs y), H.
  destruct (PrimFloat.is_nan (abs y)) eqn:E; [| reflexivity].
  f_equal. rewrite (nan_unique x), (nan_unique y); [reflexivity | |].
  - now rewrite <- is_nan_abs.
  - now rewrite <- is_nan_abs, H.
Qed.

Lemma squares_comm (a b : vec) :
  map_result (fun p => float_pow2 (fst p - snd p)) (combine a b)
  = map_result (fun p => float_pow2 (fst p - snd p)) (combine b a).
Proof.
  revert b. induction a as [|x a IH]; intros [|y b]; try reflexivity.
  cbn [combine map_result fst snd].
  now rewrite IH, (float_pow2_abs (x - y) (y - x)) by apply sub_abs_sym.
Qed.

(** X4: [euclidean_distance] does not depend on the order of its arguments,
    whatever they are: the same number is returned or the same exception is
    raised. *)
Theorem euclidean_distance_symmetric (a b : option vec) :
  euclidean_distance a b = euclidean_distance b a.
Proof.
  destruct a as [a|], b as [b|]; try reflexivity.
  unfold euclidean_distance, py_zip. cbn [rbind]. now rewrite squares_comm.
Qed.

Lemma float_pow2_nonneg (x r : float) : float_pow2 x = Ok r -> nonneg r.
Proof.
  unfold float_pow2.
  destruct (PrimFloat.is_nan x) eqn:En; [intros [= <-]; now apply nan_nonneg |].
  destruct (PrimFloat.is_infinity x); [intros [= <-]; apply abs_nonneg |].
  destruct (PrimFloat.is_zero x); [now intros [= <-] |].
  destruct (PrimFloat.is_infinity (abs x * abs x)); [discriminate |].
  intros [= <-]. apply mul_abs_nonneg.
Qed.

Lemma map_result_Forall {A B} (f : A -> result B) (Q : B -> Prop)
    (l : list A) (l' : list B) :
  (forall x y, f x = Ok y -> Q y) -> map_result f l = Ok l' -> Forall Q l'.
Proof.
  intros Hf. revert l'. induction l as [|x l IH]; intros l' H; cbn in H.
  - injection H as <-. constructor.
  - destruct (f x) as [y|] eqn:Ex; [| discriminate]. cbn [rbind] in H.
    destruct (map_result f l) as [ys|]; [| discriminate]. cbn [rbind] in H.
    injection H as <-. constructor; eauto.
Qed.

Lemma map_result_overflow (l : list float) :
  if existsb square_overflows l
  then map_result float_pow2 l = Raise OverflowError
  else exists sq, map_result float_pow2 l = Ok sq.
Proof.
  induction l as [|x l IH]; cbn [existsb map_result]; [eauto |].
  unfold square_overflows at 1.
  assert (Hx : forall e, float_pow2 x = Raise e -> e = OverflowError).
  { unfold float_pow2. intros e.
    destruct (PrimFloat.is_nan x); [discriminate |].
    destruct (PrimFloat.is_infinity x); [discriminate |].
    destruct (PrimFloat.is_zero x); [discriminate |].
    destruct (PrimFloat.is_infinity (abs x * abs x)); [congruence | discriminate]. }
  destruct (float_pow2 x) as [y|e]; cbn [orb rbind].
  - destruct (existsb square_overflows l).
    + now rewrite IH.
    + destruct IH as [sq ->]. cbn [rbind]. eauto.
  - now rewrite (Hx e eq_refl).
Qed.

Lemma map_result_map {A B C} (g : A -> B) (f : B -> result C) (l : list A) :
  map_result (fun x => f (g x)) l = map_result f (map g l).
Proof.
  induction l as [|x l IH]; [reflexivity |]. cbn [map map_result].
  now rewrite IH.
Qed.

(** X5: on two vectors [euclidean_distance] never fails in [math.sqrt]: it
    raises [OverflowError] when the square of some difference of paired
    components is out of range, and otherwise returns a number that is not
    below zero. *)
Theorem euclidean_distance_outcomes (a b : vec) :
  if existsb square_overflows (map (fun p => fst p - snd p) (combine a b))
  then euclidean_distance (Some a) (Some b) = Raise OverflowError
  else exists v, euclidean_distance (Some a) (Some b) = Ok v /\ nonneg v.
Proof.
  unfold euclidean_distance, py_zip. cbn [rbind].
  rewrite (map_result_map (fun p : float * float => fst p - snd p) float_pow2).
  pose proof (map_result_overflow (map (fun p => fst p - snd p) (combine a b))) as H.
  destruct (existsb square_overflows _).
  - now rewrite H.
  - destruct H as [sq H]. rewrite H. cbn [rbind].
    exists (sqrt (py_sum sq)). split; [| apply sqrt_nonneg].
    apply math_sqrt_nonneg, py_sum_nonneg.
    eapply map_result_Forall; [| exact H]. apply float_pow2_nonneg.
Qed.

Lemma sub_self (x : float) :
  x - x = if PrimFloat.is_finite x then 0 else nan.
Proof.
  destruct (PrimFloat.is_finite x) eqn:E; [now apply float_sub_diag |].
  apply Prim2SF_inj. rewrite sub_spec. change (Prim2SF nan) with S754_nan.
  revert E. unfold PrimFloat.is_finite, PrimFloat.is_nan, PrimFloat.is_infinity.
  rewrite !eqb_spec, abs_spec. change (Prim2SF infinity) with (S754_infinity false).
  unfold SFeqb. rewrite !SFcompare_cmp.
  destruct (Prim2SF x) as [[]|[]| |[] m e]; try reflexivity; try discriminate;
    cbn; destruct (cmp_em_spec e m e m); try discriminate; lia.
Qed.

Lemma self_squares (a : vec) (acc : float) :
  acc = 0 \/ acc = nan ->
  exists sq,
    map_result (fun p => float_pow2 (fst p - snd p)) (combine a a) = Ok sq
    /\ fold_left PrimFloat.add sq acc
       = if finite_vector a then acc else nan.
Proof.
  revert acc. induction a as [|x a IH]; intros acc Hacc.
  - exists []. split; reflexivity.
  - cbn [combine map_result fst snd finite_vector forallb].
    rewrite sub_self. fold (finite_vector a).
    destruct (PrimFloat.is_finite x).
    + destruct (IH acc Hacc) as [sq [-> Hsum]]. exists (0 :: sq).
      split; [reflexivity |]. cbn [fold_left andb].
      destruct Hacc as [-> | ->]; exact Hsum.
    + destruct (IH nan (or_intror eq_refl)) as [sq [-> Hsum]]. exists (nan :: sq).
      split; [reflexivity |]. cbn [fold_left andb].
      destruct Hacc as [-> | ->];
        (change (0 + nan) with nan || change (nan + nan) with nan);
        rewrite Hsum; now destruct (finite_vector a).
Qed.

(** X6: the distance of a vector to itself is computed without an error: it
    is 0.0 when every component is finite and a NaN as soon as one component
    is an infinity or a NaN. *)
Theorem euclidean_distance_to_itself (a : vec) :
  euclidean_distance (Some a) (Some a)
  = Ok (if finite_vector a then 0 else nan).
Proof.
  unfold euclidean_distance, py_zip, py_sum. cbn [rbind].
  destruct (self_squares a 0 (or_introl eq_refl)) as [sq [-> Hsum]].
  cbn [rbind]. rewrite Hsum. now destruct (finite_vector a).
Qed.

End MetricLaws.

(** ** Searching, slicing and stripping, continued *)

Section StringFacts.

Lemma find_from_split (c : ascii) (s : string) (i j : Z) :
  find_from c s i = j -> j <> -1 -> 0 <= i ->
  exists before rest,
    s = before ++ String c rest
    /\ has_char c before = false
    /\ j = i + Z.of_nat (String.length before).
Proof.
  revert i. induction s as [|a s IH]; intros i Hfind Hj Hi; simpl in Hfind.
  - congruence.
  - destruct (Ascii.eqb_spec a c) as [->|Hne].
    + exists EmptyString, s. cbn. repeat split. lia.
    + destruct (IH (i + 1) Hfind Hj ltac:(lia)) as [before [rest [-> [Hb Hlen]]]].
      exists (String a before), rest. cbn. repeat split.
      * apply Ascii.eqb_neq in Hne. now rewrite Hne.
      * lia.
Qed.

Lemma find_from_app (c : ascii) (before rest : string) (i : Z) :
  has_char c before = false ->
  find_from c (before ++ String c rest) i = i + Z.of_nat (String.length before).
Proof.
  revert i. induction before as [|a before IH]; intros i Hb; cbn in *.
  - rewrite Ascii.eqb_refl. lia.
  - apply orb_false_iff in Hb. destruct Hb as [Ha Hb]. rewrite Ha, IH by assumption.
    lia.
Qed.

Lemma rfind_from_none (c : ascii) (s : string) (i : Z) :
  0 <= i -> (rfind_from c s i = -1 <-> has_char c s = false).
Proof.
  revert i. induction s as [|a s IH]; intros i Hi; cbn; [tauto |].
  specialize (IH (i + 1) ltac:(lia)).
  destruct (rfind_from c s (i + 1) =? -1) eqn:E.
  - apply Z.eqb_eq in E. apply IH in E. rewrite E, orb_false_r.
    destruct (Ascii.eqb a c); [| tauto].
    split; [lia | discriminate].
  - apply Z.eqb_neq in E. split; [contradiction |].
    intros H. apply orb_false_iff in H. destruct H as [_ H]. now apply IH in H.
Qed.

Lemma rfind_from_split (c : ascii) (s : string) (i j : Z) :
  rfind_from c s i = j -> j <> -1 -> 0 <= i ->
  exists front after,
    s = front ++ String c after
    /\ has_char c after = false
    /\ j = i + Z.of_nat (String.length front).
Proof.
  revert i. induction s as [|a s IH]; intros i Hfind Hj Hi; cbn in Hfind.
  - congruence.
  - destruct (rfind_from c s (i + 1) =? -1) eqn:E.
    + apply Z.eqb_eq in E. apply rfind_from_none in E; [| lia].
      destruct (Ascii.eqb_spec a c) as [->|Hne]; [| congruence].
      exists EmptyString, s. cbn. repeat split; [assumption | lia].
    + destruct (IH (i + 1) Hfind Hj ltac:(lia)) as [front [after [-> [Ha Hlen]]]].
      exists (String a front), after. cbn. repeat split; [assumption | lia].
Qed.

Lemma rfind_from_app (c : ascii) (front after : string) (i : Z) :
  0 <= i -> has_char c after = false ->
  rfind_from c (front ++ String c after) i = i + Z.of_nat (String.length front).
Proof.
  revert i. induction front as [|a front IH]; intros i Hi Ha; cbn.
  - apply (rfind_from_none c after (i + 1)) in Ha; [| lia].
    rewrite Ha, Ascii.eqb_refl. cbn. lia.
  - rewrite IH by (assumption || lia).
    destruct (_ =? -1) eqn:E; [lia | lia].
Qed.

Lemma append_split (s1 t1 s2 t2 : string) :
  s1 ++ t1 = s2 ++ t2 -> (String.length s1 <= String.length s2)%nat ->
  exists m, s2 = s1 ++ m /\ t1 = m ++ t2.
Proof.
  revert s2. induction s1 as [|a s1 IH]; intros s2 H Hlen; cbn in *.
  - exists s2. auto.
  - destruct s2 as [|b s2]; cbn in *; [lia |].
    injection H as <- H. destruct (IH s2 H ltac:(lia)) as [m [-> ->]].
    exists m. auto.
Qed.

Lemma append_assoc (a b c : string) : (a ++ b) ++ c = a ++ (b ++ c).
Proof. induction a as [|x a IH]; cbn; [reflexivity | now rewrite IH]. Qed.

Lemma length_append (a b : string) :
  String.length (a ++ b) = (String.length a + String.length b)%nat.
Proof. induction a as [|x a IH]; cbn; [reflexivity | now rewrite IH]. Qed.

Lemma substring_prefix (a b : string) :
  substring 0 (String.length a) (a ++ b) = a.
Proof.
  induction a as [|x a IH]; cbn; [now destruct b | now rewrite IH].
Qed.

Lemma substring_skip (a b : string) (n : nat) :
  substring (String.length a) n (a ++ b) = substring 0 n b.
Proof. induction a as [|x a IH]; cbn; [reflexivity | exact IH]. Qed.

(** Where the first opening and the last closing brace of a text are, and
    what the two slices of [extract_json_and_reasoning] hold. *)
Lemma braces_found (before body after : string) :
  has_char "{" before = false -> has_char "}" after = false ->
  let text := before ++ String "{" (body ++ String "}" after) in
  0 <= str_find "{" text < str_rfind "}" text
  /\ slice text 0 (str_find "{" text) = before
  /\ slice text (str_find "{" text) (str_rfind "}" text + 1)
     = String "{" (body ++ "}").
Proof.
  intros Hb Ha text.
  assert (Hf : str_find "{" text = Z.of_nat (String.length before)).
  { unfold str_find, text. now rewrite find_from_app. }
  assert (Hr : str_rfind "}" text
               = Z.of_nat (String.length before) + 1 + Z.of_nat (String.length body)).
  { unfold str_rfind.
    replace text with ((before ++ String "{" body) ++ String "}" after)
      by (unfold text; now rewrite append_assoc).
    rewrite rfind_from_app, length_append by (assumption || lia).
    cbn [String.length]. lia. }
  rewrite Hf, Hr. unfold slice, text. split; [lia |]. split.
  - replace (Z.to_nat 0) with 0%nat by reflexivity.
    replace (Z.to_nat (Z.of_nat (String.length before) - 0))
      with (String.length before) by lia.
    apply substring_prefix.
  - rewrite Nat2Z.id, substring_skip.
    replace (Z.to_nat _) with (String.length (String "{" (body ++ "}"))).
    2:{ cbn [String.length]. rewrite length_append. cbn [String.length]. lia. }
    replace (String "{" (body ++ String "}" after))
      with (String "{" (body ++ "}") ++ after)
      by (cbn; now rewrite append_assoc).
    apply substring_prefix.
Qed.

(** A text cut at its first opening and its last closing brace. *)
Lemma braces_split (text : string) :
  0 <= str_find "{" text < str_rfind "}" text ->
  exists before body after,
    text = before ++ String "{" (body ++ String "}" after)
    /\ has_char "{" before = false
    /\ has_char "}" after = false.
Proof.
  intros Hrange. unfold str_find, str_rfind in Hrange.
  destruct (find_from_split "{" text 0 _ eq_refl ltac:(lia) ltac:(lia))
    as [before [rest [Htext [Hb Hstart]]]].
  destruct (rfind_from_split "}" text 0 _ eq_refl ltac:(lia) ltac:(lia))
    as [front [after [Htext' [Ha Hend]]]].
  assert (Hsplit : exists m,
            front = before ++ m /\ String "{" rest = m ++ String "}" after).
  { apply append_split; [congruence | lia]. }
  destruct Hsplit as [m [-> Hrest]].
  rewrite length_append in Hend.
  destruct m as [|x body]; [cbn in Hend; lia |].
  cbn in Hrest. injection Hrest as <- ->.
  exists before, body, after. auto.
Qed.

(** X7: [extract_json_and_reasoning] returns a pair exactly when the text
    reads [before { body } after] with no opening brace in [before] and no
    closing brace in [after], and the decoder accepts [{ body }]; the pair is
    then [before], stripped, and the decoded value. What follows the last
    closing brace is ignored. *)
Theorem extract_splits_at_braces {R : PyRuntime} (text r : string) (p : json) :
  extract_json_and_reasoning text = Some (r, p)
  <-> exists before body after,
        text = before ++ String "{" (body ++ String "}" after)
        /\ has_char "{" before = false
        /\ has_char "}" after = false
        /\ r = strip before
        /\ json_loads (String "{" (body ++ "}")) = Some p.
Proof.
  split.
  - intros H. unfold extract_json_and_reasoning in H.
    destruct (str_find "{" text =? -1) eqn:E1; [discriminate |].
    destruct (str_rfind "}" text =? -1) eqn:E2; [discriminate |].
    destruct (str_rfind "}" text <=? str_find "{" text) eqn:E3; [discriminate |].
    cbn [orb] in H. apply Z.eqb_neq in E1, E2. apply Z.leb_gt in E3.
    assert (Hpos : 0 <= str_find "{" text).
    { destruct (find_from_split "{" text 0 _ eq_refl E1) as [b [_ [_ [_ Hb]]]];
        [lia |]. fold (str_find "{" text) in Hb. lia. }
    destruct (braces_split text ltac:(lia))
      as [before [body [after [Htext [Hb Ha]]]]].
    destruct (braces_found before body after Hb Ha) as [_ [Hs1 Hs2]].
    rewrite <- Htext in Hs1, Hs2. rewrite Hs1, Hs2 in H.
    destruct (json_loads (String "{" (body ++ "}"))) as [v|] eqn:El;
      [| discriminate].
    injection H as <- <-. exists before, body, after. repeat split; assumption.
  - intros [before [body [after [Htext [Hb [Ha [-> Hl]]]]]]].
    destruct (braces_found before body after Hb Ha) as [Hrange [Hs1 Hs2]].
    rewrite <- Htext in Hrange, Hs1, Hs2.
    rewrite (extract_succeeds text p); [now rewrite Hs1 | lia |].
    now rewrite Hs2.
Qed.

Lemma has_char_append (c : ascii) (a b : string) :
  has_char c (a ++ b) = has_char c a || has_char c b.
Proof.
  induction a as [|x a IH]; cbn; [reflexivity |]. now rewrite IH, orb_assoc.
Qed.

Lemma append_empty (a : string) : a ++ EmptyString = a.
Proof. induction a as [|x a IH]; cbn; [reflexivity | now rewrite IH]. Qed.

Lemma string_rev_append (a b : string) :
  string_rev (a ++ b) = string_rev b ++ string_rev a.
Proof.
  induction a as [|x a IH]; cbn; [now rewrite append_empty |].
  now rewrite IH, append_assoc.
Qed.

Lemma string_rev_involutive (a : string) : string_rev (string_rev a) = a.
Proof.
  induction a as [|x a IH]; cbn; [reflexivity |].
  now rewrite string_rev_append, IH.
Qed.

Lemma has_char_rev (c : ascii) (a : string) :
  has_char c (string_rev a) = has_char c a.
Proof.
  induction a as [|x a IH]; cbn; [reflexivity |].
  rewrite has_char_append, IH. cbn. rewrite orb_false_r. apply orb_comm.
Qed.

Section DropSpaces.

Variable p1 : ascii -> bool.
Variable p2 : ascii -> ascii -> bool.
Variable p3 : ascii -> ascii -> ascii -> bool.

(** One step of [drop_spaces]: the text is returned, or a whitespace
    character is passed over. *)
Lemma drop_spaces_step (s : string) :
  (starts_clean p1 p2 p3 s = true /\ drop_spaces p1 p2 p3 s = s)
  \/ exists pre s',
       s = pre ++ s'
       /\ (String.length s' < String.length s)%nat
       /\ drop_spaces p1 p2 p3 s = drop_spaces p1 p2 p3 s'.
Proof.
  destruct s as [|a s1]; [now left |]. cbn [drop_spaces starts_clean].
  destruct (p1 a).
  { right. exists (String a EmptyString), s1. cbn. repeat split. lia. }
  destruct s1 as [|b s2]; [now left |].
  destruct (p2 a b).
  { right. exists (String a (String b EmptyString)), s2. cbn. repeat split. lia. }
  destruct s2 as [|c s3]; [now left |].
  destruct (p3 a b c); [| now left].
  right. exists (String a (String b (String c EmptyString))), s3. cbn.
  repeat split. lia.
Qed.

Lemma drop_spaces_spec (s : string) :
  exists pre,
    s = pre ++ drop_spaces p1 p2 p3 s
    /\ starts_clean p1 p2 p3 (drop_spaces p1 p2 p3 s) = true.
Proof.
  assert (H : forall n s, (String.length s <= n)%nat ->
            exists pre,
              s = pre ++ drop_spaces p1 p2 p3 s
              /\ starts_clean p1 p2 p3 (drop_spaces p1 p2 p3 s) = true).
  { clear s. induction n as [|n IH]; intros s Hlen.
    - destruct s; [| cbn in Hlen; lia]. now exists EmptyString.
    - destruct (drop_spaces_step s) as [[Hc ->] | [pre [s' (-> & Hlt & ->)]]].
      + now exists EmptyString.
      + destruct (IH s' ltac:(lia)) as [pre' [Hs' Hc]].
        exists (pre ++ pre'). split; [| exact Hc].
        now rewrite append_assoc, <- Hs'. }
  now apply (H (String.length s)).
Qed.

Lemma starts_clean_fixed (s : string) :
  starts_clean p1 p2 p3 s = true -> drop_spaces p1 p2 p3 s = s.
Proof.
  destruct s as [|a [|b [|c s3]]]; cbn [starts_clean drop_spaces];
    try reflexivity;
    destruct (p1 a); try discriminate; try reflexivity;
    destruct (p2 a b); try discriminate; try reflexivity;
    destruct (p3 a b c); try discriminate; reflexivity.
Qed.

Lemma starts_clean_prefix (u v : string) :
  starts_clean p1 p2 p3 (u ++ v) = true -> starts_clean p1 p2 p3 u = true.
Proof.
  destruct u as [|a [|b [|c u3]]]; cbn; try reflexivity; try tauto.
  - destruct (p1 a); [discriminate | reflexivity].
  - destruct (p1 a); [discriminate |]. cbn.
    destruct (p2 a b); [discriminate | reflexivity].
Qed.

Lemma drop_spaces_idem (s : string) :
  drop_spaces p1 p2 p3 (drop_spaces p1 p2 p3 s) = drop_spaces p1 p2 p3 s.
Proof.
  destruct (drop_spaces_spec s) as [pre [_ Hc]]. now apply starts_clean_fixed.
Qed.

Lemma has_char_drop_spaces (c : ascii) (s : string) :
  has_char c s = false -> has_char c (drop_spaces p1 p2 p3 s) = false.
Proof.
  destruct (drop_spaces_spec s) as [pre [Hs _]]. intros H.
  rewrite Hs, has_char_append in H. now apply orb_false_iff in H.
Qed.

End DropSpaces.

(** What [rstrip] returns is the text without some last part of it. *)
Lemma rstrip_prefix (s : string) : exists post, s = rstrip s ++ post.
Proof.
  unfold rstrip.
  destruct (drop_spaces_spec is_space (fun a b => is_space2 b a)
              (fun a b c => is_space3 c b a) (string_rev s)) as [pre [Hs _]].
  exists (string_rev pre).
  now rewrite <- string_rev_append, <- Hs, string_rev_involutive.
Qed.

Lemma rstrip_idem (s : string) : rstrip (rstrip s) = rstrip s.
Proof.
  unfold rstrip. now rewrite string_rev_involutive, drop_spaces_idem.
Qed.

Lemma lstrip_clean (s : string) :
  starts_clean is_space is_space2 is_space3 (lstrip s) = true.
Proof.
  unfold lstrip.
  now destruct (drop_spaces_spec is_space is_space2 is_space3 s) as [pre [_ H]].
Qed.

(** Stripping a stripped text changes nothing. *)
Lemma strip_idem (s : string) : strip (strip s) = strip s.
Proof.
  unfold strip. pose proof (lstrip_clean s) as Hc.
  destruct (rstrip_prefix (lstrip s)) as [post Hpost].
  rewrite Hpost in Hc. apply starts_clean_prefix in Hc.
  fold (lstrip (rstrip (lstrip s))).
  unfold lstrip at 1. rewrite (starts_clean_fixed _ _ _ _ Hc).
  apply rstrip_idem.
Qed.

Lemma has_char_strip (c : ascii) (s : string) :
  has_char c s = false -> has_char c (strip s) = false.
Proof.
  intros H. unfold strip, rstrip, lstrip.
  rewrite has_char_rev. apply has_char_drop_spaces.
  rewrite has_char_rev. now apply has_char_drop_spaces.
Qed.

End StringFacts.

(** ** Generation, continued *)

Section GenerationFacts.

Context {R : PyRuntime} (P : Provider).

(** What [embed_loop] costs and where its result comes from. *)
Lemma embed_loop_run (text : string) (attempts : list nat) (st : Server) :
  exists r st',
    embed_loop P text attempts st = (Ok r, st')
    /\ worlds st' = worlds st
    /\ (calls st' <= calls st + List.length attempts)%nat
    /\ (attempts <> [] -> calls st < calls st')%nat
    /\ (calls st <= calls st')%nat
    /\ forall v, r = Some v -> exists n, embed_content P n text = Embedding v.
Proof.
  revert st. induction attempts as [|attempt rest IH]; intros st; cbn [embed_loop].
  - exists None, st. unfold ret. repeat split; try lia; [congruence | discriminate].
  - destruct (embed_content P (calls st) text) as [v|msg] eqn:E.
    + eexists _, _. split; [reflexivity |]. cbn. repeat split; try lia.
      intros v' [= <-]. eauto.
    + destruct (contains "429" msg && (attempt <? 2)%nat).
      * destruct (IH (emit (EvSleep (2 ^ Z.of_nat attempt))
                        (tick (EvEmbed text (EmbedFailure msg)) st)))
          as [r [st' (H & Hw & Hle & _ & Hge & Hv)]].
        exists r, st'. cbn in *. repeat split; try assumption; lia.
      * eexists _, _. split; [reflexivity |]. cbn. repeat split; try lia.
        discriminate.
Qed.

Lemma extract_reasoning (text r : string) (p : json) :
  extract_json_and_reasoning text = Some (r, p) ->
  strip r = r /\ has_char "{" r = false.
Proof.
  intros H. unfold extract_json_and_reasoning in H.
  destruct (str_find "{" text =? -1) eqn:E1; [discriminate |].
  destruct (str_rfind "}" text =? -1) eqn:E2; [discriminate |].
  destruct (str_rfind "}" text <=? str_find "{" text) eqn:E3; [discriminate |].
  cbn [orb] in H. apply Z.eqb_neq in E1, E2. apply Z.leb_gt in E3.
  destruct (json_loads _); [| discriminate]. injection H as <- _.
  split; [apply strip_idem |]. apply has_char_strip.
  destruct (find_from_split "{" text 0 _ eq_refl E1 ltac:(lia))
    as [before [rest [Htext [Hb Hlen]]]].
  fold (str_find "{" text) in Hlen. unfold slice.
  rewrite Hlen, Htext. cbn [Z.to_nat].
  replace (Z.to_nat (0 + Z.of_nat (String.length before) - 0))
    with (String.length before) by lia.
  now rewrite substring_prefix.
Qed.

Lemma locals_after_reasoning (reply : GenReply) (world : dict json) :
  strip (fst (locals_after reply world)) = fst (locals_after reply world)
  /\ has_char "{" (fst (locals_after reply world)) = false.
Proof.
  destruct reply as [text|msg]; [| now split]. unfold locals_after, reconcile.
  destruct (extract_json_and_reasoning text) as [[r p]|] eqn:E; [| now split].
  destruct (update_known_keys world p) as [w e]. cbn [fst].
  now apply extract_reasoning with text p.
Qed.

Lemma embedding_input_keys (world : dict json) :
  dict_keys world = known_keys -> exists text, embedding_input world = Ok text.
Proof.
  intros Hk. unfold embedding_input.
  assert (Hitem : forall k, In k known_keys -> exists v, dict_item k world = Ok v).
  { intros k Hin. apply dict_item_keys. now rewrite Hk. }
  destruct (Hitem "summary" ltac:(simpl; auto)) as [v1 ->].
  destruct (Hitem "biome" ltac:(simpl; auto)) as [v2 ->].
  destruct (Hitem "culture" ltac:(simpl; auto)) as [v3 ->].
  destruct (Hitem "myth" ltac:(simpl; auto 6)) as [v4 ->].
  cbn [rbind]. eauto.
Qed.

(** [generate_world], step by step: one call of the generative model, then
    the embedding of the text made from the reconciled record. *)
Lemma generate_world_run (biome culture tone : json) (prompt : string)
    (st : Server) :
  build_prompt biome culture tone = Ok prompt ->
  exists res st' text,
    generate_world P biome culture tone st = (Ok res, st')
    /\ (gr_reasoning res, gr_world res)
       = locals_after (generate_content P (calls st) prompt)
           (fallback_world biome culture tone)
    /\ embedding_input (gr_world res) = Ok text
    /\ worlds st' = worlds st
    /\ (calls st + 2 <= calls st' <= calls st + 4)%nat
    /\ forall v, gr_embedding res = Some v ->
                 exists n, embed_content P n text = Embedding v.
Proof.
  intros Hprompt.
  pose proof (locals_after_keys (generate_content P (calls st) prompt)
                (fallback_world biome culture tone)) as Hkeys.
  change (dict_keys (fallback_world biome culture tone)) with known_keys in Hkeys.
  unfold generate_world, bind, lift. rewrite Hprompt.
  set (reply := generate_content P (calls st) prompt) in *.
  set (world := fallback_world biome culture tone) in *.
  assert (Hstep : exists st1,
    match reply with
    | GenText text =>
        match reconcile text world with
        | (r, w, None) => (Ok (r, w), tick (EvGenerate prompt reply) st)
        | (r, w, Some _) =>
            (Ok (r, w),
             emit (EvPrint "Gemini generation error:")
               (tick (EvGenerate prompt reply) st))
        end
    | GenFailure _ =>
        (Ok ("", world),
         emit (EvPrint "Gemini generation error:")
           (tick (EvGenerate prompt reply) st))
    end = (Ok (locals_after reply world), st1)
    /\ worlds st1 = worlds st /\ calls st1 = S (calls st)).
  { unfold locals_after. destruct reply as [text|msg]; [| eauto].
    destruct (reconcile text world) as [[r w] [x|]]; eauto. }
  destruct Hstep as [st1 [Hstep [Hw1 Hc1]]]. rewrite Hstep.
  destruct (locals_after reply world) as [r w]. cbn [fst snd] in *.
  assert (Hitem : forall k, In k known_keys -> exists v, dict_item k w = Ok v).
  { intros k Hk. apply dict_item_keys. now rewrite Hkeys. }
  destruct (Hitem "summary" ltac:(simpl; auto)) as [v1 E1].
  destruct (Hitem "biome" ltac:(simpl; auto)) as [v2 E2].
  destruct (Hitem "culture" ltac:(simpl; auto)) as [v3 E3].
  destruct (Hitem "myth" ltac:(simpl; auto 6)) as [v4 E4].
  rewrite E1, E2, E3, E4.
  match goal with
  | |- context [embed_text P ?t st1] =>
      destruct (embed_loop_run t [0; 1; 2]%nat st1)
        as [e [st2 (He & Hw2 & Hle & Hlt & _ & Hv)]];
      fold (embed_text P t) in He; rewrite He; exists
        {| gr_reasoning := r; gr_world := w; gr_embedding := e |}, st2, t
  end.
  split; [reflexivity |]. cbn [gr_reasoning gr_world gr_embedding].
  split; [reflexivity |]. split.
  { unfold embedding_input. now rewrite E1, E2, E3, E4. }
  split; [congruence |]. split; [| exact Hv].
  specialize (Hlt ltac:(discriminate)). cbn in Hle. lia.
Qed.

End GenerationFacts.

(** ** The generating routes *)

Section Routes.

Context {R : PyRuntime} (P : Provider).

Lemma generated_well_formed (biome culture : json) (tone : string)
    (st st' : Server) (res : GenResult) (n : nat) :
  generate_world P biome culture (JStr tone) st = (Ok res, st') ->
  well_formed P (full_world n res)
  /\ worlds st' = worlds st
  /\ (calls st + 2 <= calls st' <= calls st + 4)%nat.
Proof.
  intros Hgen.
  destruct (build_prompt_str biome culture tone) as [prompt Hp].
  destruct (generate_world_run P biome culture (JStr tone) prompt st Hp)
    as [res0 [st0 [text (H & Hloc & Htext & Hw & Hc & Hv)]]].
  rewrite Hgen in H. injection H as <- <-.
  split; [| now split]. unfold well_formed. cbn [full_world reasoning fields embedding].
  pose proof (locals_after_reasoning (generate_content P (calls st) prompt)
                (fallback_world biome culture (JStr tone))) as [Hs Hb].
  rewrite <- Hloc in Hs, Hb. cbn [fst] in Hs, Hb.
  split; [exact Hs |]. split; [exact Hb |]. exists text. now split.
Qed.

Lemma generate_world_str (biome culture : json) (tone : string) (st : Server) :
  exists res st', generate_world P biome culture (JStr tone) st = (Ok res, st').
Proof.
  destruct (build_prompt_str biome culture tone) as [prompt Hp].
  destruct (generate_world_run P biome culture (JStr tone) prompt st Hp)
    as [res [st' [text [H _]]]].
  eauto.
Qed.

Lemma route_run (req : WorldRequest) (st : Server) :
  exists res st2,
    generate_world P (JStr (req_biome req)) (JStr (req_culture req))
      (JStr (req_tone req)) st = (Ok res, st2)
    /\ generate_world_route P req st
       = (Ok (WorldGenerated "World generated"
                (full_world (List.length (worlds st2)) res)),
          append_world (full_world (List.length (worlds st2)) res) st2).
Proof.
  destruct (generate_world_str (JStr (req_biome req)) (JStr (req_culture req))
              (req_tone req) st) as [res [st2 H]].
  exists res, st2. split; [exact H |].
  unfold generate_world_route, bind. now rewrite H.
Qed.

(** [function_call], case by case. *)
Lemma function_call_run (req : FunctionCallRequest) (st : Server) :
  let reply := generate_with_tools P (calls st) (message req) in
  let st1 := tick (EvTools (message req) reply) st in
  function_call P req st =
  match tool_request reply with
  | NoCall => (Ok (ErrorBody "No valid function call returned"), st1)
  | BadCall =>
      (Ok (ErrorBody "Function calling failed"),
       emit (EvPrint "Function calling error:") st1)
  | Call fn biome culture tone =>
      match generate_world P biome culture (JStr tone) st1 with
      | (Ok res, st2) =>
          (Ok (FunctionCalled "Function call successful" fn
                 (full_world (List.length (worlds st2)) res)),
           append_world (full_world (List.length (worlds st2)) res) st2)
      | (Raise _, st2) =>
          (Ok (ErrorBody "Function calling failed"),
           emit (EvPrint "Function calling error:") st2)
      end
  end.
Proof.
  intros reply st1. unfold function_call, try_except. fold reply. fold st1.
  destruct reply as [[fn|]|msg]; cbn [tool_request]; try reflexivity.
  destruct (fc_name fn =? "generateWorld")%string; cbn [negb]; [| reflexivity].
  unfold bind at 1, lift, dict_item.
  destruct (dict_get "biome" (fc_args fn)) as [b|]; [| reflexivity].
  unfold bind at 1.
  destruct (dict_get "culture" (fc_args fn)) as [c|];
    [| now destruct (dict_get "tone" (fc_args fn)) as [[]|]].
  unfold bind at 1.
  destruct (dict_get "tone" (fc_args fn)) as [t|]; [| reflexivity].
  unfold bind at 1.
  destruct t as [|x|x|tone|x|x];
    try (match goal with
         | |- context [generate_world P b c ?t st1] =>
             rewrite (generate_world_raises P b c t AttributeError st1 eq_refl)
         end; reflexivity).
  now destruct (generate_world P b c (JStr tone) st1) as [[res|e] st2].
Qed.

(** X8: [function_call] never raises, and its three answers tell what the
    tool-calling request returned: the success message with a world appended
    under the next id exactly for a call to [generateWorld] that has its
    three arguments and a string as tone; [No valid function call returned]
    exactly for no call or a call by another name; [Function calling failed]
    exactly when the request failed, an argument is missing or the tone is
    not a string. In the last two cases the stored worlds are untouched. *)
Theorem function_call_outcomes (req : FunctionCallRequest) (st : Server) :
  let reply := generate_with_tools P (calls st) (message req) in
  exists resp st',
    function_call P req st = (Ok resp, st')
    /\ match tool_request reply with
       | NoCall =>
           resp = ErrorBody "No valid function call returned"
           /\ worlds st' = worlds st
       | BadCall =>
           resp = ErrorBody "Function calling failed"
           /\ worlds st' = worlds st
       | Call fn _ _ _ =>
           exists w,
             resp = FunctionCalled "Function call successful" fn w
             /\ worlds st' = (worlds st ++ [w])%list
             /\ id w = Z.of_nat (List.length (worlds st)) + 1
       end.
Proof.
  intros reply. rewrite function_call_run. fold reply.
  destruct (tool_request reply) as [| |fn b c t]; try (eexists _, _; now split).
  set (st1 := tick _ st).
  destruct (generate_world_str b c t st1) as [res [st2 Hgen]].
  destruct (generated_well_formed b c t st1 st2 res 0 Hgen) as [_ [Hw _]].
  rewrite Hgen. eexists _, _. split; [reflexivity |].
  eexists. split; [reflexivity |]. cbn. now rewrite Hw.
Qed.

(** X9: a tool call to [generateWorld] with three strings is served as the
    request [/generate-world] with these strings would be, from the state
    that the tool-calling request left: the same world is stored and the
    same state is reached. *)
Theorem function_call_as_route (req : FunctionCallRequest) (st : Server)
    (fn : FunctionCall) (biome culture tone : string) :
  let reply := generate_with_tools P (calls st) (message req) in
  tool_request reply = Call fn (JStr biome) (JStr culture) tone ->
  exists w st',
    generate_world_route P
      {| req_biome := biome; req_culture := culture; req_tone := tone |}
      (tick (EvTools (message req) reply) st)
    = (Ok (WorldGenerated "World generated" w), st')
    /\ function_call P req st
       = (Ok (FunctionCalled "Function call successful" fn w), st').
Proof.
  intros reply Hcall. rewrite function_call_run. fold reply. rewrite Hcall.
  destruct (route_run {| req_biome := biome; req_culture := culture;
                         req_tone := tone |}
              (tick (EvTools (message req) reply) st))
    as [res [st2 [Hgen Hroute]]].
  cbn [req_biome req_culture req_tone] in Hgen. rewrite Hgen, Hroute. eauto.
Qed.

Lemma endpoint_calls (k : Metric) (req : QueryRequest) (st : Server) :
  worlds (snd (endpoint P k req st)) = worlds st
  /\ (calls st + 1 <= calls (snd (endpoint P k req st)) <= calls st + 3)%nat.
Proof.
  destruct (embed_loop_run P (query req) [0; 1; 2]%nat st)
    as [q [st1 (He & Hw & Hle & Hlt & _)]].
  fold (embed_text P (query req)) in He.
  destruct (endpoint_run P k req st st1 q He) as [_ Heq]. rewrite Heq.
  specialize (Hlt ltac:(discriminate)). cbn in Hle.
  destruct (map_result _ _); cbn [snd]; split; try assumption; lia.
Qed.

(** X10: the provider calls of one request: none for [/worlds]; one to three
    for a similarity endpoint; two to four for [/generate-world]; one to five
    for [/ai-function-call]. *)
Theorem provider_calls_per_request (r : Request) (st : Server) :
  (calls st + fst (call_budget r) <= calls (snd (handle P r st))
   <= calls st + snd (call_budget r))%nat.
Proof.
  destruct r as [req| |req|req|req|req]; cbn [handle call_budget fst snd].
  - destruct (route_run req st) as [res [st2 [Hgen ->]]].
    destruct (generated_well_formed _ _ _ st st2 res 0 Hgen) as [_ [_ Hc]].
    cbn. lia.
  - cbn. lia.
  - apply (endpoint_calls Dot).
  - apply (endpoint_calls Cosine).
  - apply (endpoint_calls L2).
  - rewrite function_call_run.
    destruct (tool_request _) as [| |fn b c t]; [cbn; lia | cbn; lia |].
    set (st1 := tick _ st).
    destruct (generate_world_str b c t st1) as [res [st2 Hgen]].
    destruct (generated_well_formed b c t st1 st2 res 0 Hgen) as [_ [_ Hc]].
    rewrite Hgen. cbn in *. lia.
Qed.

Lemma reading_keeps_store (r : Request) (st : Server) :
  may_generate r = false -> worlds (snd (handle P r st)) = worlds st.
Proof.
  destruct r as [req| |req|req|req|req]; try discriminate; intros _;
    cbn [handle]; [reflexivity | | |].
  - apply (endpoint_calls Dot).
  - apply (endpoint_calls Cosine).
  - apply (endpoint_calls L2).
Qed.

(** What one request appends, with the making of the appended world. *)
Lemma handle_appends (r : Request) (st : Server) :
  exists added,
    worlds (snd (handle P r st)) = (worlds st ++ added)%list
    /\ Forall (well_formed P) added
    /\ (List.length added <= 1)%nat
    /\ (generates r = true -> List.length added = 1%nat)
    /\ (may_generate r = false -> added = []).
Proof.
  destruct (may_generate r) eqn:Em.
  2:{ exists []. rewrite app_nil_r. repeat split; auto.
      - now apply reading_keeps_store.
      - destruct r; discriminate. }
  destruct r as [req| |req|req|req|req]; try discriminate; cbn [handle].
  - destruct (route_run req st) as [res [st2 [Hgen ->]]].
    destruct (generated_well_formed _ _ _ st st2 res (List.length (worlds st2)) Hgen)
      as [Hwf [Hw _]].
    eexists [_]. cbn. rewrite Hw.
    repeat split; auto; discriminate.
  - rewrite function_call_run.
    destruct (tool_request _) as [| |fn b c t];
      try (exists []; rewrite app_nil_r; cbn; repeat split; auto; discriminate).
    set (st1 := tick _ st).
    destruct (generate_world_str b c t st1) as [res [st2 Hgen]].
    destruct (generated_well_formed b c t st1 st2 res (List.length (worlds st2)) Hgen)
      as [Hwf [Hw _]].
    rewrite Hgen. eexists [_]. cbn. rewrite Hw.
    repeat split; auto; discriminate.
Qed.

(** X11: every world stored after any sequence of requests from the empty
    store has a reasoning text that is stripped and holds no opening brace,
    and an embedding that is absent or is an answer of the embedding
    provider to the text made of the world's own summary, biome, culture and
    myth. *)
Theorem stored_worlds_well_formed (rs : list Request) :
  Forall (well_formed P) (worlds (run P rs initial)).
Proof.
  assert (H : forall st, Forall (well_formed P) (worlds st) ->
                         Forall (well_formed P) (worlds (run P rs st))).
  { induction rs as [|r rs IH]; intros st Hst; [assumption |].
    cbn [run fold_left]. apply IH.
    destruct (handle_appends r st) as [added [-> [Hwf _]]].
    apply Forall_app. now split. }
  apply H. constructor.
Qed.

(** X12: the number of stored worlds after a sequence of requests from the
    empty store lies between the number of [/generate-world] requests and
    the number of [/generate-world] and [/ai-function-call] requests: the
    first kind always stores a world, the second may, no other does. *)
Theorem store_size_bounds (rs : list Request) :
  (List.length (filter generates rs)
   <= List.length (worlds (run P rs initial))
   <= List.length (filter may_generate rs))%nat.
Proof.
  assert (H : forall st,
            (List.length (worlds st) + List.length (filter generates rs)
             <= List.length (worlds (run P rs st))
             <= List.length (worlds st) + List.length (filter may_generate rs))%nat).
  { induction rs as [|r rs IH]; intros st; [cbn; lia |].
    change (run P (r :: rs) st) with (run P rs (snd (handle P r st))).
    cbn [filter]. specialize (IH (snd (handle P r st))).
    destruct (handle_appends r st) as [added (Hw & _ & Hle & Hone & Hnone)].
    rewrite Hw, length_app in IH.
    destruct (generates r) eqn:Eg, (may_generate r) eqn:Em;
      try (destruct r; discriminate); cbn [List.length].
    - specialize (Hone eq_refl). lia.
    - lia.
    - rewrite (Hnone eq_refl) in IH. cbn in IH. lia. }
  apply (H initial).
Qed.

(** X13: a world that [/generate-world] has returned stays listed: after
    any later requests [/worlds] returns it unchanged at the position given
    by its id. *)
Theorem generated_world_stays_listed (req : WorldRequest) (st st' : Server)
    (msg : string) (w : World) (rs : list Request) :
  generate_world_route P req st = (Ok (WorldGenerated msg w), st') ->
  exists ws,
    get_worlds (run P rs st') = (Ok (WorldList ws), run P rs st')
    /\ id w = Z.of_nat (List.length (worlds st)) + 1
    /\ nth_error ws (Z.to_nat (id w) - 1) = Some w.
Proof.
  intros Hroute.
  destruct (generate_world_route_appends P req st) as [w0 [st0 (H & Hw & Hid & _)]].
  rewrite Hroute in H. injection H as _ <- <-.
  destruct (run_extends P rs st') as [more Hmore].
  exists (worlds (run P rs st')). split; [reflexivity |]. split; [exact Hid |].
  rewrite Hmore, Hw, Hid, <- app_assoc.
  replace (Z.to_nat (Z.of_nat (List.length (worlds st)) + 1) - 1)%nat
    with (List.length (worlds st)) by lia.
  rewrite nth_error_app2 by lia. now rewrite Nat.sub_diag.
Qed.

End Routes.

(** ** The answers of the similarity endpoints *)

Section Answers.

Context {R : PyRuntime} (P : Provider).

Lemma map_result_length {A B} (f : A -> result B) (l : list A) (l' : list B) :
  map_result f l = Ok l' -> List.length l' = List.length l.
Proof.
  revert l'. induction l as [|x l IH]; intros l' H; cbn in H.
  - now injection H as <-.
  - destruct (f x) as [y|]; [| discriminate]. cbn [rbind] in H.
    destruct (map_result f l) as [ys|]; [| discriminate]. cbn [rbind] in H.
    injection H as <-. cbn. f_equal. now apply IH.
Qed.

Lemma match_of_inv (metric : option vec -> option vec -> result float)
    (q : option vec) (w : World) (m : Match) :
  match_of metric q w = Ok m ->
  m_id m = id w
  /\ dict_get "summary" (fields w) = Some (m_summary m)
  /\ dict_get "tone" (fields w) = Some (m_tone m)
  /\ metric q (embedding w) = Ok (m_value m).
Proof.
  unfold match_of, dict_item.
  destruct (dict_get "summary" (fields w)); [| discriminate].
  destruct (dict_get "tone" (fields w)); [| discriminate].
  destruct (metric q (embedding w)); [| discriminate].
  cbn [rbind]. now intros [= <-].
Qed.

Lemma map_result_ids (metric : option vec -> option vec -> result float)
    (q : option vec) (l : list World) (cands : list Match) :
  map_result (match_of metric q) l = Ok cands -> map m_id cands = map id l.
Proof.
  revert cands. induction l as [|w l IH]; intros cands H; cbn in H.
  - now injection H as <-.
  - destruct (match_of metric q w) as [m|] eqn:Em; [| discriminate].
    cbn [rbind] in H.
    destruct (map_result (match_of metric q) l) as [ms|]; [| discriminate].
    cbn [rbind] in H. injection H as <-. cbn.
    f_equal; [now apply (match_of_id metric q) | now apply IH].
Qed.

Lemma py_take_length {A} (n : Z) (l : list A) :
  List.length (py_take n l) = take_count n (List.length l).
Proof.
  unfold py_take, take_count. destruct (n <? 0); rewrite length_firstn; lia.
Qed.

Lemma py_take_all {A} (n : Z) (l : list A) :
  Z.of_nat (List.length l) <= n -> py_take n l = l.
Proof.
  intros H. unfold py_take. destruct (Z.ltb_spec n 0); [lia |].
  apply firstn_all2. lia.
Qed.

(** What an endpoint answers, in terms of the candidates. *)
Lemma endpoint_answer (k : Metric) (req : QueryRequest) (st st' : Server)
    (ms : list Match) :
  endpoint P k req st = (Ok (Matches ms), st') ->
  exists q cands,
    embed_text P (query req) st = (Ok q, st')
    /\ map_result (match_of (metric_fn k) q)
         (filter (fun w => truthy (embedding w)) (worlds st)) = Ok cands
    /\ ms = py_take (topN req) (list_sort (fun m => sort_key k (m_value m)) cands).
Proof.
  intros Hrun.
  destruct (embed_text_total P (query req) st) as [q [st1 [Hq _]]].
  destruct (endpoint_run P k req st st1 q Hq) as [_ Heq].
  rewrite Heq in Hrun.
  destruct (map_result _ _) as [cands|] eqn:Ecands; [| discriminate].
  injection Hrun as <- <-. exists q, cands. auto.
Qed.

(** X14: the number of matches that a similarity endpoint returns is the
    length of the slice [[:topN]] of the stored worlds with an embedding:
    [topN] of them when there are that many, all of them when there are
    fewer, none for [topN = 0], and all but the last [-topN] for a negative
    [topN]. *)
Theorem answer_length (k : Metric) (req : QueryRequest) (st st' : Server)
    (ms : list Match) :
  endpoint P k req st = (Ok (Matches ms), st') ->
  List.length ms
  = take_count (topN req)
      (List.length (filter (fun w => truthy (embedding w)) (worlds st))).
Proof.
  intros Hrun. destruct (endpoint_answer k req st st' ms Hrun)
    as [q [cands (_ & Hcands & ->)]].
  rewrite py_take_length. f_equal.
  rewrite <- (Permutation_length (list_sort_perm _ cands)).
  now apply map_result_length in Hcands.
Qed.

(** X15: every match that a similarity endpoint returns carries the id, the
    summary and the tone of one stored world with an embedding, and the
    value of the endpoint's metric on the query embedding and that world's
    embedding; and when [topN] is at least the number of such worlds, each
    of them is answered once. *)
Theorem answer_provenance (k : Metric) (req : QueryRequest) (st st' : Server)
    (ms : list Match) :
  endpoint P k req st = (Ok (Matches ms), st') ->
  exists q,
    embed_text P (query req) st = (Ok q, st')
    /\ (forall m, In m ms ->
          exists w,
            In w (worlds st) /\ truthy (embedding w) = true
            /\ m_id m = id w
            /\ dict_get "summary" (fields w) = Some (m_summary m)
            /\ dict_get "tone" (fields w) = Some (m_tone m)
            /\ metric_fn k q (embedding w) = Ok (m_value m))
    /\ (Z.of_nat (List.length (filter (fun w => truthy (embedding w)) (worlds st)))
        <= topN req ->
        Permutation (map m_id ms)
          (map id (filter (fun w => truthy (embedding w)) (worlds st)))).
Proof.
  intros Hrun. destruct (endpoint_answer k req st st' ms Hrun)
    as [q [cands (Hq & Hcands & ->)]].
  exists q. split; [exact Hq |]. split.
  - intros m Hin.
    destruct (py_take_firstn (topN req)
                (list_sort (fun m => sort_key k (m_value m)) cands)) as [j Hj].
    rewrite Hj in Hin. apply firstn_incl in Hin.
    apply (Permutation_in _ (Permutation_sym (list_sort_perm _ cands))) in Hin.
    destruct (map_result_in _ _ _ _ Hcands Hin) as [w [Hw Hm]].
    apply filter_In in Hw. destruct Hw as [Hw Ht].
    exists w. split; [assumption |]. split; [assumption |].
    now apply match_of_inv.
  - intros Hn. rewrite py_take_all.
    + rewrite <- (map_result_ids _ _ _ _ Hcands).
      apply Permutation_map, Permutation_sym, list_sort_perm.
    + rewrite <- (Permutation_length (list_sort_perm _ cands)).
      now rewrite (map_result_length _ _ _ Hcands).
Qed.

Local Open Scope float_scope.

Lemma cosine_cases (a b : vec) :
  (exists v, cosine_similarity (Some a) (Some b) = Ok v)
  \/ cosine_similarity (Some a) (Some b) = Raise ZeroDivisionError.
Proof.
  rewrite cosine_by_norms, !norm_returns.
  destruct (dot_product_returns a b) as [d ->]. cbn [rbind]. unfold float_div.
  destruct (PrimFloat.is_zero _); eauto.
Qed.

Lemma euclidean_cases (a b : vec) :
  (exists v, euclidean_distance (Some a) (Some b) = Ok v)
  \/ euclidean_distance (Some a) (Some b) = Raise OverflowError.
Proof.
  unfold euclidean_distance, py_zip. cbn [rbind].
  rewrite (map_result_map (fun p : float * float => fst p - snd p) float_pow2).
  pose proof (map_result_overflow (map (fun p => fst p - snd p) (combine a b))) as H.
  destruct (existsb square_overflows _).
  - right. now rewrite H.
  - left. destruct H as [sq H]. rewrite H. cbn [rbind].
    rewrite math_sqrt_nonneg; [eauto |].
    apply py_sum_nonneg. eapply map_result_Forall; [| exact H].
    apply float_pow2_nonneg.
Qed.

Lemma metric_cases (k : Metric) (q : option vec) (e : vec) :
  (exists v, metric_fn k q (Some e) = Ok v)
  \/ exists x, metric_fn k q (Some e) = Raise x /\ may_raise k q x.
Proof.
  destruct q as [qv|].
  - destruct k; cbn [metric_fn may_raise].
    + left. apply dot_product_returns.
    + destruct (cosine_cases qv e) as [H | H]; eauto.
    + destruct (euclidean_cases qv e) as [H | H]; eauto.
  - right. exists TypeError. split; [apply metric_absent_query | reflexivity].
Qed.

Lemma candidates_cases (k : Metric) (q : option vec) (l : list World) :
  Forall (fun w => dict_keys (fields w) = known_keys) l ->
  (exists cands,
     map_result (match_of (metric_fn k) q)
       (filter (fun w => truthy (embedding w)) l) = Ok cands)
  \/ exists x,
       map_result (match_of (metric_fn k) q)
         (filter (fun w => truthy (embedding w)) l) = Raise x
       /\ may_raise k q x.
Proof.
  induction 1 as [|w l Hw _ IH]; [left; now exists [] |].
  cbn [filter]. destruct (truthy (embedding w)) eqn:Et; [| exact IH].
  cbn [map_result]. unfold match_of at 1 3.
  destruct (dict_item_keys "summary" (fields w)) as [s ->];
    [rewrite Hw; simpl; auto |].
  destruct (dict_item_keys "tone" (fields w)) as [t ->];
    [rewrite Hw; simpl; auto |].
  cbn [rbind].
  destruct (embedding w) as [[|x e]|]; try discriminate.
  destruct (metric_cases k q (x :: e)) as [[v ->] | [y [-> Hy]]]; cbn [rbind].
  - destruct IH as [[cands ->] | [y [-> Hy]]]; cbn [rbind]; eauto.
  - eauto.
Qed.

(** X16: on the worlds stored after any sequence of requests from the empty
    store a similarity endpoint answers, or raises one of few exceptions:
    [TypeError] when the query embedding is absent; with a query embedding
    the dot-product endpoint always answers, the cosine endpoint can raise
    [ZeroDivisionError] only and the distance endpoint [OverflowError]
    only. *)
Theorem endpoint_errors (k : Metric) (req : QueryRequest) (rs : list Request) :
  let st := run P rs initial in
  exists q st1,
    embed_text P (query req) st = (Ok q, st1)
    /\ ((exists ms, endpoint P k req st = (Ok (Matches ms), st1))
        \/ exists x, endpoint P k req st = (Raise x, st1) /\ may_raise k q x).
Proof.
  intros st.
  destruct (embed_text_total P (query req) st) as [q [st1 [Hq _]]].
  exists q, st1. split; [exact Hq |].
  destruct (endpoint_run P k req st st1 q Hq) as [_ ->].
  destruct (candidates_cases k q (worlds st) (reachable_fields P rs))
    as [[cands ->] | [x [-> Hx]]]; eauto.
Qed.

(** X18: asking a similarity endpoint for fewer matches gives the first
    entries of the longer answer, and an exception raised for one [topN] is
    raised for every other one: all candidates are computed and sorted
    before the answer is cut. *)
Theorem smaller_top_is_prefix (k : Metric) (text : string) (n m : Z)
    (st : Server) :
  0 <= n <= m ->
  match endpoint P k {| query := text; topN := m |} st with
  | (Ok (Matches ms), st') =>
      endpoint P k {| query := text; topN := n |} st
      = (Ok (Matches (firstn (Z.to_nat n) ms)), st')
  | (Ok _, _) => False
  | (Raise x, st') =>
      endpoint P k {| query := text; topN := n |} st = (Raise x, st')
  end.
Proof.
  intros Hnm.
  destruct (embed_text_total P text st) as [q [st1 [Hq _]]].
  destruct (endpoint_run P k {| query := text; topN := m |} st st1 q Hq) as [_ ->].
  destruct (endpoint_run P k {| query := text; topN := n |} st st1 q Hq) as [_ ->].
  cbn [topN]. destruct (map_result _ _) as [cands|x]; [| reflexivity].
  unfold py_take. destruct (Z.ltb_spec n 0), (Z.ltb_spec m 0); try lia.
  rewrite firstn_firstn, Nat.min_l by lia. reflexivity.
Qed.

End Answers.

(** ** Reconciliation, continued *)

Section MergeFacts.

Context {R : PyRuntime}.

Lemma dict_set_same {V} (k : string) (v : V) (d : dict V) :
  dict_get k d = Some v -> dict_set k v d = d.
Proof.
  induction d as [|[k' v'] d IH]; cbn; [discriminate |].
  destruct (String.eqb k' k); [now intros [= ->] |].
  intros H. now rewrite IH.
Qed.

Lemma merge_fold_fixed (parsed : dict json) (ks : list string) (w : dict json) :
  (forall k v, In k ks -> dict_get k parsed = Some v -> dict_get k w = Some v) ->
  fold_left (merge_step parsed) ks w = w.
Proof.
  induction ks as [|k ks IH]; intros H; [reflexivity |]. cbn [fold_left].
  assert (Hstep : merge_step parsed w k = w).
  { unfold merge_step. destruct (dict_get k parsed) as [v|] eqn:E; [| reflexivity].
    apply dict_set_same, H; [now left | assumption]. }
  rewrite Hstep. apply IH. intros k' v Hin. apply H. now right.
Qed.

Lemma update_known_keys_twice (world : dict json) (p : json) :
  update_known_keys (fst (update_known_keys world p)) p
  = update_known_keys world p.
Proof.
  destruct p as [|b|n|s|items|d]; try reflexivity.
  cbn [update_known_keys fst]. f_equal.
  rewrite merge_fold_keys by apply incl_refl.
  apply merge_fold_fixed. intros k v Hin Hk.
  rewrite merge_fold_get by apply incl_refl.
  destruct (in_dec string_dec k (dict_keys world)); [| contradiction].
  now rewrite Hk.
Qed.

(** X17: reconciling the reconciled record once more with the same answer
    changes nothing: the same reasoning, the same record and the same
    exception, if any, come out. *)
Theorem reconcile_is_idempotent (text : string) (world : dict json) :
  reconcile text (snd (fst (reconcile text world))) = reconcile text world.
Proof.
  unfold reconcile.
  destruct (extract_json_and_reasoning text) as [[r p]|]; [| reflexivity].
  pose proof (update_known_keys_twice world p) as H.
  destruct (update_known_keys world p) as [w e]. cbn [fst snd] in *.
  now rewrite H.
Qed.

End MergeFacts.

(** ** Further sample runs *)

Section MoreInstances.

Import Decoder Samples.

Local Open Scope float_scope.

(** The helpful provider answers the message with a call to [generateWorld]
    for a reef world. *)
Lemma function_call_as_route_witness :
  exists w st',
    generate_world_route helpful
      {| req_biome := "reef"; req_culture := "seafaring"; req_tone := "mystical" |}
      (tick (EvTools "a reef world"
               (generate_with_tools helpful 0 "a reef world")) initial)
    = (Ok (WorldGenerated "World generated" w), st')
    /\ function_call helpful {| message := "a reef world" |} initial
       = (Ok (FunctionCalled "Function call successful"
                {| fc_name := "generateWorld";
                   fc_args := [("biome", JStr "reef");
                               ("culture", JStr "seafaring");
                               ("tone", JStr "mystical")] |} w), st').
Proof.
  exact (function_call_as_route helpful {| message := "a reef world" |} initial
           _ "reef" "seafaring" "mystical" eq_refl).
Defined.

(** A generated world is still the first of the list after a query and a
    second generation. *)
Lemma generated_world_stays_listed_witness :
  exists w st' ws,
    generate_world_route helpful tundra initial
    = (Ok (WorldGenerated "World generated" w), st')
    /\ get_worlds (run helpful [PostSimilarDot top2; PostGenerateWorld tundra] st')
       = (Ok (WorldList ws),
          run helpful [PostSimilarDot top2; PostGenerateWorld tundra] st')
    /\ id w = 1%Z
    /\ nth_error ws 0 = Some w.
Proof.
  destruct (generate_world_route_appends helpful tundra initial)
    as [w [st' (H & _)]].
  destruct (generated_world_stays_listed helpful tundra initial st' _ w
              [PostSimilarDot top2; PostGenerateWorld tundra] H)
    as [ws (Hget & Hid & Hnth)].
  exists w, st', ws. rewrite Hid in Hnth. cbn in Hid, Hnth. auto.
Defined.

(** Three of the four stored worlds have an embedding; all but the last
    match are asked for. *)
Lemma answer_length_witness :
  exists ms st',
    endpoint helpful Cosine {| query := "ice"; topN := -1 |} library
    = (Ok (Matches ms), st')
    /\ List.length ms = 2%nat.
Proof.
  assert (H : exists ms st',
            endpoint helpful Cosine {| query := "ice"; topN := -1 |} library
            = (Ok (Matches ms), st')).
  { eexists _, _. reflexivity. }
  destruct H as [ms [st' H]]. exists ms, st'. split; [exact H |].
  now rewrite (answer_length helpful Cosine _ library st' ms H).
Defined.

(** More matches are asked for than there are stored embeddings. *)
Lemma answer_provenance_witness :
  exists ms st',
    endpoint helpful L2 {| query := "ice"; topN := 5 |} library
    = (Ok (Matches ms), st')
    /\ Permutation (map m_id ms) [1; 3; 4]%Z
    /\ forall m, In m ms -> m_summary m = JStr fallback_summary.
Proof.
  assert (H : exists ms st',
            endpoint helpful L2 {| query := "ice"; topN := 5 |} library
            = (Ok (Matches ms), st')).
  { eexists _, _. reflexivity. }
  destruct H as [ms [st' H]]. exists ms, st'. split; [exact H |].
  destruct (answer_provenance helpful L2 _ library st' ms H)
    as [q (_ & Hfrom & Hall)].
  split; [apply Hall; cbn; lia |].
  intros m Hm. destruct (Hfrom m Hm) as [w (Hw & _ & _ & Hs & _)].
  cbn in Hw. decompose [or] Hw; try contradiction; subst; cbn in Hs;
    injection Hs as <-; reflexivity.
Defined.

(** The two nearest stored worlds are the first two of the three nearest. *)
Lemma smaller_top_is_prefix_witness :
  exists ms st',
    endpoint helpful L2 {| query := "ice"; topN := 3 |} library
    = (Ok (Matches ms), st')
    /\ endpoint helpful L2 {| query := "ice"; topN := 2 |} library
       = (Ok (Matches (firstn 2 ms)), st').
Proof.
  assert (H : exists ms st',
            endpoint helpful L2 {| query := "ice"; topN := 3 |} library
            = (Ok (Matches ms), st')).
  { eexists _, _. reflexivity. }
  destruct H as [ms [st' H]]. exists ms, st'. split; [exact H |].
  pose proof (smaller_top_is_prefix helpful L2 "ice" 2 3 library
                ltac:(lia)) as Hp.
  rewrite H in Hp. exact Hp.
Defined.

(** A no-break space (U+00A0, the bytes [C2 A0]) and an ideographic space
    (U+3000, the bytes [E3 80 80]) around the reasoning are stripped like a
    space; a zero-width space (U+200B, the bytes [E2 80 8B]) is no
    whitespace and stays. *)
Example extract_strips_unicode_spaces :
  extract_json_and_reasoning
    (String "227" (String "128" (String "128"
       ("Reasoning." ++ String "194" (String "160"
          ("{" ++ quoted "summary" ++ ":" ++ quoted "X" ++ "}"))))))
  = Some ("Reasoning.", JObj [("summary", JStr "X")])
  /\ strip (String "226" (String "128" (String "139" " a ")))
     = String "226" (String "128" (String "139" " a")).
Proof. split; reflexivity. Qed.

(** A failure without the digits 429 in its text ends the call at once. *)
Example embed_text_gives_up :
  embed_text unreachable "ice" initial
  = (Ok None,
     {| worlds := [];
        calls := 1;
        log := [ EvEmbed "ice" (EmbedFailure "503 unavailable");
                 EvPrint "Embedding error:" ] |}).
Proof. reflexivity. Qed.

End MoreInstances.
